(** * BallBarrier: the physics and game-state core of [src/app/src/main.ts]

    JavaScript numbers are modelled as real numbers (exact arithmetic); the one
    place where the core can produce a non-finite number, the division in
    [pointToLineDistance], is modelled with an explicit IEEE result type.
    Three.js [Vector3] values keep all three coordinates: balls sit at height
    0.15 and drawn lines at height 0.1, and the code measures 3D distances. *)

From Stdlib Require Import Reals Lra Lia List.
Import ListNotations.
Open Scope R_scope.

(** ** Three.js vectors *)

Record Vector3 := mkV { x : R; y : R; z : R }.

Definition vadd (a b : Vector3) : Vector3 := mkV (x a + x b) (y a + y b) (z a + z b).
Definition vsub (a b : Vector3) : Vector3 := mkV (x a - x b) (y a - y b) (z a - z b).
Definition multiplyScalar (a : Vector3) (s : R) : Vector3 := mkV (x a * s) (y a * s) (z a * s).
(** [divideScalar(s)] is [multiplyScalar(1 / s)] in three.js. *)
Definition divideScalar (a : Vector3) (s : R) : Vector3 := multiplyScalar a (1 / s).
Definition dot (a b : Vector3) : R := x a * x b + y a * y b + z a * z b.
Definition lengthSq (a : Vector3) : R := dot a a.
Definition length (a : Vector3) : R := sqrt (lengthSq a).
(** three.js: [normalize() { return this.divideScalar(this.length() || 1); }]:
    a zero-length vector is divided by 1 and stays the zero vector. *)
Definition normalize (a : Vector3) : Vector3 :=
  let l := length a in divideScalar a (if Req_EM_T l 0 then 1 else l).
Definition distanceTo (a b : Vector3) : R := length (vsub a b).

(** ** JavaScript division, [Math.min] and [Math.max]

    [a / b] in JavaScript is finite unless [b = 0]: then it is [NaN] for
    [a = 0] and an infinity of the sign of [a] otherwise. *)

Inductive jsnum := Fin (r : R) | NaN | PosInf | NegInf.

Definition js_div (a b : R) : jsnum :=
  if Req_EM_T b 0 then
    (if Req_EM_T a 0 then NaN else if Rlt_dec 0 a then PosInf else NegInf)
  else Fin (a / b).

(** [Math.min(c, v)] and [Math.max(c, v)] for a finite constant [c]: [NaN] is
    absorbing, an infinity loses to or beats every finite number. *)
Definition js_min (c : R) (v : jsnum) : jsnum :=
  match v with
  | Fin r => Fin (Rmin c r) | NaN => NaN | PosInf => Fin c | NegInf => NegInf
  end.
Definition js_max (c : R) (v : jsnum) : jsnum :=
  match v with
  | Fin r => Fin (Rmax c r) | NaN => NaN | PosInf => PosInf | NegInf => Fin c
  end.

(** ** Game data *)

Record Ball := mkBall { position : Vector3 (* ball.mesh.position *);
                        velocity : Vector3; radius : R }.
Record LineSegment := mkSeg { start : Vector3; end_ : Vector3 }.
(** The rendering mesh of a [Line] is not modelled. *)
Record Line := mkLine { segments : list LineSegment }.

Definition worldSize : R := 10.
Definition boundarySize : R := worldSize * 0.9.

(** ** [pointToLineDistance] (main.ts 349-355)

    [None] is the JavaScript value [NaN]; [Some d] a finite distance. *)
Definition pointToLineDistance (point lineStart lineEnd : Vector3) : option R :=
  let line := vsub lineEnd lineStart in
  let pointToStart := vsub point lineStart in
  match js_max 0 (js_min 1 (js_div (dot pointToStart line) (lengthSq line))) with
  | Fin t =>
      let projection := vadd lineStart (multiplyScalar line t) in
      Some (distanceTo point projection)
  | _ => None (* a non-finite [t] makes the projection, hence the distance, NaN *)
  end.

(** ** Collision response of one ball against one segment (main.ts 330-343)

    The reflection [v - 2 (v.n) n] about the normal [(-dir.z, 0, dir.x)] of the
    normalized segment direction (lines 332-336). *)
Definition lineDirection (segment : LineSegment) : Vector3 :=
  normalize (vsub (end_ segment) (start segment)).
Definition segmentNormal (segment : LineSegment) : Vector3 :=
  let d := lineDirection segment in mkV (- z d) 0 (x d).
Definition reflect (v n : Vector3) : Vector3 :=
  vsub v (multiplyScalar n (2 * dot v n)).

(** The closest point of lines 339-341: the ball position projected on the
    carrier line of the segment, with an unclamped projection. *)
Definition closestPoint (p : Vector3) (segment : LineSegment) : Vector3 :=
  let dir := lineDirection segment in
  let projection := dot (vsub p (start segment)) dir in
  vadd (start segment) (multiplyScalar dir projection).

(** Body of the inner loop of [checkBallLineCollision].  Line 343 recomputes
    [pointToLineDistance] at the ball position, which lines 331-342 leave
    unchanged, so the distance [d] of line 330 is reused.  A [NaN] distance
    fails the test [d < radius]. *)
Definition collideSegment (ball : Ball) (segment : LineSegment) : Ball :=
  match pointToLineDistance (position ball) (start segment) (end_ segment) with
  | Some d =>
      if Rlt_dec d (radius ball) then
        let v' := reflect (velocity ball) (segmentNormal segment) in
        let pushDirection := normalize (vsub (position ball) (closestPoint (position ball) segment)) in
        let p' := vadd (position ball) (multiplyScalar pushDirection (radius ball - d + 0.01)) in
        mkBall p' v' (radius ball)
      else ball
  | None => ball
  end.

(** [checkBallLineCollision] (main.ts 327-347): every segment of every line,
    in insertion order, each applied to the ball as left by the previous one. *)
Definition checkBallLineCollision (lines : list Line) (ball : Ball) : Ball :=
  fold_left (fun b line => fold_left collideSegment (segments line) b) lines ball.

(** ** Session state of [BallBarrierGame] (rendering fields omitted) *)

Record Game := mkGame {
  gameStarted : bool;
  gameTime : R;
  ballSpeed : R;
  ballCount : nat;
  nextBallSpawn : R;
  balls : list Ball;
  lines : list Line;
  isDrawing : bool;
  currentLinePoints : list Vector3 }.

(** The field initialisers of the class: the Idle state. *)
Definition initialGame : Game :=
  mkGame false 0 2 1 5 [] [] false [].

Definition set_balls (g : Game) (bs : list Ball) : Game :=
  mkGame (gameStarted g) (gameTime g) (ballSpeed g) (ballCount g) (nextBallSpawn g)
         bs (lines g) (isDrawing g) (currentLinePoints g).
Definition set_lines (g : Game) (ls : list Line) : Game :=
  mkGame (gameStarted g) (gameTime g) (ballSpeed g) (ballCount g) (nextBallSpawn g)
         (balls g) ls (isDrawing g) (currentLinePoints g).
Definition set_drawing (g : Game) (d : bool) (pts : list Vector3) : Game :=
  mkGame (gameStarted g) (gameTime g) (ballSpeed g) (ballCount g) (nextBallSpawn g)
         (balls g) (lines g) d pts.

(** [gameOver] (main.ts 385-391); the DOM updates are not modelled. *)
Definition gameOver (g : Game) : Game :=
  mkGame false (gameTime g) (ballSpeed g) (ballCount g) (nextBallSpawn g)
         (balls g) (lines g) (isDrawing g) (currentLinePoints g).

(** ** [spawnBall] (main.ts 281-306)

    [rnd] is the value returned by the [Math.random()] of line 292 (the one of
    line 284 only picks a colour). *)
Definition spawnAngle (rnd : R) : R := rnd * PI * 2.
Definition newBall (speed rnd : R) : Ball :=
  let angle := spawnAngle rnd in
  mkBall (mkV 0 0.15 0) (mkV (cos angle * speed) 0 (sin angle * speed)) 0.15.
Definition spawnBall (g : Game) (rnd : R) : Game :=
  set_balls g (balls g ++ [newBall (ballSpeed g) rnd]).

(** ** [updateBalls] (main.ts 308-325)

    The loop runs from the last ball to the first: the tail of the list is
    processed before its head.  The boolean tells whether [gameOver] was called,
    after which the loop returns and the balls before it are left untouched. *)
Definition moveBall (deltaTime : R) (ball : Ball) : Ball :=
  mkBall (vadd (position ball) (multiplyScalar (velocity ball) deltaTime))
         (velocity ball) (radius ball).

Definition outOfBoundary (ball : Ball) : bool :=
  if Rlt_dec (boundarySize / 2 - radius ball) (Rabs (x (position ball))) then true
  else if Rlt_dec (boundarySize / 2 - radius ball) (Rabs (z (position ball))) then true
  else false.

Fixpoint updateBallsList (lines : list Line) (deltaTime : R) (bs : list Ball)
  : list Ball * bool :=
  match bs with
  | [] => ([], false)
  | ball :: rest =>
      let (rest', over) := updateBallsList lines deltaTime rest in
      if over then (ball :: rest', true)
      else
        let moved := moveBall deltaTime ball in
        if outOfBoundary moved then (moved :: rest', true)
        else (checkBallLineCollision lines moved :: rest', false)
  end.

Definition updateBalls (g : Game) (deltaTime : R) : Game :=
  let (bs, over) := updateBallsList (lines g) deltaTime (balls g) in
  let g' := set_balls g bs in
  if over then gameOver g' else g'.

(** ** [gameLoop] (main.ts 393-424), one tick of a given [deltaTime]

    [gameLoop_pre] is lines 400-415: the clock, the difficulty ramp and the
    spawn; [gameLoop] then runs [updateBalls] (line 418). *)
Definition gameLoop_pre (g : Game) (deltaTime rnd : R) : Game :=
  let t := gameTime g + deltaTime in
  let g1 := mkGame (gameStarted g) t (2 + t * 0.1) (ballCount g) (nextBallSpawn g)
                   (balls g) (lines g) (isDrawing g) (currentLinePoints g) in
  if Rlt_dec (nextBallSpawn g1) (gameTime g1) then
    let g2 := spawnBall g1 rnd in
    mkGame (gameStarted g2) (gameTime g2) (ballSpeed g2) (ballCount g2)
           (nextBallSpawn g2 + Rmax 3 (8 - gameTime g2 * 0.1))
           (balls g2) (lines g2) (isDrawing g2) (currentLinePoints g2)
  else g1.

Definition gameLoop (g : Game) (deltaTime rnd : R) : Game :=
  if gameStarted g then updateBalls (gameLoop_pre g deltaTime rnd) deltaTime else g.

(** ** [startGame] and [restartGame] (main.ts 357-383)

    The draw buffer ([isDrawing], [currentLinePoints]) is not reset. *)
Definition startGame (g : Game) (rnd : R) : Game :=
  let g1 := mkGame true 0 2 1 5 [] [] (isDrawing g) (currentLinePoints g) in
  spawnBall g1 rnd.

Definition restartGame (g : Game) (rnd : R) : Game := startGame g rnd.

(** ** Drawing barriers (main.ts 175-279)

    Pointer positions are given in world coordinates ([getPointerPosition] is
    not modelled); drawn points sit at height 0.1. *)
Fixpoint segmentsOf (pts : list Vector3) : list LineSegment :=
  match pts with
  | p :: ((q :: _) as rest) => mkSeg p q :: segmentsOf rest
  | _ => []
  end.

Definition segmentOutOfBounds (segment : LineSegment) : bool :=
  if Rlt_dec (boundarySize / 2) (Rabs (x (start segment))) then true
  else if Rlt_dec (boundarySize / 2) (Rabs (z (start segment))) then true
  else if Rlt_dec (boundarySize / 2) (Rabs (x (end_ segment))) then true
  else if Rlt_dec (boundarySize / 2) (Rabs (z (end_ segment))) then true
  else false.

(** [checkLineOutOfBounds] scans every segment of every line, not only the
    new one. *)
Definition checkLineOutOfBounds (g : Game) : Game :=
  if existsb (fun line => existsb segmentOutOfBounds (segments line)) (lines g)
  then gameOver g else g.

Definition finalizeLine (g : Game) : Game :=
  if Nat.ltb (List.length (currentLinePoints g)) 2 then g
  else checkLineOutOfBounds
         (set_lines g (lines g ++ [mkLine (segmentsOf (currentLinePoints g))])).

Definition onPointerDown (g : Game) (px pz : R) : Game :=
  if gameStarted g then set_drawing g true [mkV px 0.1 pz] else g.

(** With an empty buffer, [lastPoint.distanceTo] throws before any mutation:
    the handler leaves the state unchanged. *)
Definition onPointerMove (g : Game) (px pz : R) : Game :=
  if (gameStarted g && isDrawing g)%bool then
    let newPoint := mkV px 0.1 pz in
    let pts := currentLinePoints g in
    match nth_error pts (List.length pts - 1) with
    | Some lastPoint =>
        if Rlt_dec 0.1 (distanceTo lastPoint newPoint)
        then set_drawing g true (pts ++ [newPoint]) else g
    | None => g
    end
  else g.

Definition onPointerUp (g : Game) : Game :=
  if (gameStarted g && isDrawing g)%bool then
    let g1 := set_drawing g false (currentLinePoints g) in
    let g2 := if Nat.ltb 1 (List.length (currentLinePoints g1)) then finalizeLine g1 else g1 in
    set_drawing g2 (isDrawing g2) []
  else g.

(** ** [getPointerPosition] (main.ts 152-173)

    [rect] is [canvas.getBoundingClientRect()]; the canvas is displayed, with
    a positive width and height.  For a touch event each client coordinate is
    [touches[0]?.clientX || changedTouches[0]?.clientX]: [||] falls through on
    a missing touch ([undefined]) and also on the coordinate 0, which is falsy.
    [None] is an [undefined] coordinate, from which the arithmetic makes
    [NaN]. *)
Record DOMRect := mkRect { rect_left : R; rect_top : R; rect_width : R; rect_height : R }.
Record Touch := mkTouch { touchClientX : R; touchClientY : R }.
Inductive PointerEvent :=
  | MouseEvent (clientX clientY : R)
  | TouchEvent (touches changedTouches : list Touch).

Definition js_or (a b : option R) : option R :=
  match a with
  | Some r => if Req_EM_T r 0 then b else Some r
  | None => b
  end.

Definition getPointerPosition (rect : DOMRect) (event : PointerEvent) : option R * option R :=
  let '(clientX, clientY) :=
    match event with
    | MouseEvent cx cy => (Some cx, Some cy)
    | TouchEvent touches changedTouches =>
        (js_or (option_map touchClientX (hd_error touches))
               (option_map touchClientX (hd_error changedTouches)),
         js_or (option_map touchClientY (hd_error touches))
               (option_map touchClientY (hd_error changedTouches)))
    end in
  let x := option_map (fun cx => ((cx - rect_left rect) / rect_width rect) * 2 - 1) clientX in
  let y := option_map (fun cy => - ((cy - rect_top rect) / rect_height rect) * 2 + 1) clientY in
  (option_map (fun x => x * worldSize / 2) x, option_map (fun y => - y * worldSize / 2) y).

(** ** [resize] (main.ts 426-453): the bounds of the orthographic camera for
    a window of the given size ([renderer.setSize] is not modelled). *)
Record Frustum := mkFrustum { camLeft : R; camRight : R; camTop : R; camBottom : R }.

Definition resize (width height : R) : Frustum :=
  let aspect := width / height in
  if Rlt_dec 1 aspect then
    mkFrustum (- worldSize / 2 * aspect) (worldSize / 2 * aspect)
              (worldSize / 2) (- worldSize / 2)
  else
    mkFrustum (- worldSize / 2) (worldSize / 2)
              (worldSize / 2 / aspect) (- worldSize / 2 / aspect).

(** ** Reachable states: the class initialisers followed by any sequence of
    button clicks, animation frames and pointer events.  [deltaTime] comes from
    the monotonic [performance.now()]; [Math.random()] lies in [0, 1). *)
Inductive reachable : Game -> Prop :=
  | reach_init : reachable initialGame
  | reach_start g rnd : reachable g -> 0 <= rnd < 1 -> reachable (startGame g rnd)
  | reach_restart g rnd : reachable g -> 0 <= rnd < 1 -> reachable (restartGame g rnd)
  | reach_tick g dt rnd : reachable g -> 0 <= dt -> 0 <= rnd < 1 ->
      reachable (gameLoop g dt rnd)
  | reach_down g px pz : reachable g -> reachable (onPointerDown g px pz)
  | reach_move g px pz : reachable g -> reachable (onPointerMove g px pz)
  | reach_up g : reachable g -> reachable (onPointerUp g).

(** * Proofs *)

(** ** The tick: bookkeeping lemmas *)

Lemma updateBallsList_length ls dt bs :
  List.length (fst (updateBallsList ls dt bs)) = List.length bs.
Proof.
  induction bs as [|b rest IH]; simpl; [reflexivity|].
  destruct (updateBallsList ls dt rest) as [rest' over]; simpl in *.
  destruct over; [simpl; lia|].
  destruct (outOfBoundary (moveBall dt b)); simpl; lia.
Qed.

(** The loop reports a game over exactly when some ball leaves the boundary
    right after being moved. *)
Lemma updateBallsList_over ls dt bs :
  snd (updateBallsList ls dt bs) = existsb (fun b => outOfBoundary (moveBall dt b)) bs.
Proof.
  induction bs as [|b rest IH]; simpl; [reflexivity|].
  destruct (updateBallsList ls dt rest) as [rest' over]; simpl in *.
  subst over. destruct (existsb _ rest); simpl.
  - now rewrite Bool.orb_true_r.
  - rewrite Bool.orb_false_r. now destruct (outOfBoundary (moveBall dt b)).
Qed.

(** When the loop stops, the balls it had not reached yet are untouched and
    the ball that stopped it is moved but not collision-resolved. *)
Lemma updateBallsList_abort ls dt bs :
  snd (updateBallsList ls dt bs) = true ->
  exists pre b post post',
    bs = pre ++ b :: post /\
    fst (updateBallsList ls dt bs) = pre ++ moveBall dt b :: post' /\
    outOfBoundary (moveBall dt b) = true.
Proof.
  induction bs as [|b rest IH]; simpl; [discriminate|].
  destruct (updateBallsList ls dt rest) as [rest' over] eqn:E; simpl in *.
  destruct over.
  - intros _. destruct (IH eq_refl) as (pre & b' & post & post' & H1 & H2 & H3).
    exists (b :: pre), b', post, post'. subst. simpl. auto.
  - destruct (outOfBoundary (moveBall dt b)) eqn:Hb; simpl; [|discriminate].
    intros _. exists [], b, rest, rest'. auto.
Qed.

Lemma outOfBoundary_spec b :
  outOfBoundary b = true <->
  boundarySize / 2 - radius b < Rabs (x (position b)) \/
  boundarySize / 2 - radius b < Rabs (z (position b)).
Proof.
  unfold outOfBoundary.
  destruct (Rlt_dec _ (Rabs (x (position b)))) as [H|H];
    [split; auto|].
  destruct (Rlt_dec _ (Rabs (z (position b)))) as [H'|H'];
    split; intuition; discriminate.
Qed.

Lemma updateBalls_started g dt :
  gameStarted (updateBalls g dt) =
  (gameStarted g && negb (snd (updateBallsList (lines g) dt (balls g))))%bool.
Proof.
  unfold updateBalls. destruct (updateBallsList _ _ _) as [bs []]; simpl.
  - now rewrite Bool.andb_false_r.
  - now rewrite Bool.andb_true_r.
Qed.

Lemma updateBalls_fields g dt :
  gameTime (updateBalls g dt) = gameTime g /\
  ballSpeed (updateBalls g dt) = ballSpeed g /\
  nextBallSpawn (updateBalls g dt) = nextBallSpawn g /\
  lines (updateBalls g dt) = lines g /\
  balls (updateBalls g dt) = fst (updateBallsList (lines g) dt (balls g)) /\
  isDrawing (updateBalls g dt) = isDrawing g /\
  currentLinePoints (updateBalls g dt) = currentLinePoints g.
Proof.
  unfold updateBalls. destruct (updateBallsList _ _ _) as [bs []]; simpl; tauto.
Qed.

Lemma gameLoop_pre_fields g dt rnd :
  gameStarted (gameLoop_pre g dt rnd) = gameStarted g /\
  gameTime (gameLoop_pre g dt rnd) = gameTime g + dt /\
  lines (gameLoop_pre g dt rnd) = lines g /\
  isDrawing (gameLoop_pre g dt rnd) = isDrawing g /\
  currentLinePoints (gameLoop_pre g dt rnd) = currentLinePoints g.
Proof.
  unfold gameLoop_pre. destruct (Rlt_dec _ _); simpl; tauto.
Qed.

Lemma gameLoop_lines g dt rnd : lines (gameLoop g dt rnd) = lines g.
Proof.
  unfold gameLoop. destruct (gameStarted g); [|reflexivity].
  rewrite (proj1 (proj2 (proj2 (proj2 (updateBalls_fields _ dt))))).
  apply gameLoop_pre_fields.
Qed.

(** ** Claim C3: a running tick ends the game exactly when some ball, right
    after [position += velocity * deltaTime], is beyond
    [boundarySize/2 - radius] in [|x|] or [|z|]; the loop then stops, leaving
    the balls it had not reached neither moved nor collision-resolved. *)
Theorem tick_gameover_iff_breach (g : Game) (dt rnd : R) :
  gameStarted g = true ->
  let g0 := gameLoop_pre g dt rnd in
  let g' := gameLoop g dt rnd in
  (gameStarted g' = false <->
   exists b, In b (balls g0) /\
     (boundarySize / 2 - radius b < Rabs (x (position (moveBall dt b))) \/
      boundarySize / 2 - radius b < Rabs (z (position (moveBall dt b))))) /\
  (gameStarted g' = false ->
   exists pre b post post',
     balls g0 = pre ++ b :: post /\
     balls g' = pre ++ moveBall dt b :: post' /\
     (boundarySize / 2 - radius b < Rabs (x (position (moveBall dt b))) \/
      boundarySize / 2 - radius b < Rabs (z (position (moveBall dt b))))).
Proof.
  intros Hs g0 g'.
  assert (Hg' : g' = updateBalls g0 dt) by (unfold g', gameLoop; now rewrite Hs).
  assert (Hs0 : gameStarted g0 = true)
    by (unfold g0; now rewrite (proj1 (gameLoop_pre_fields g dt rnd))).
  assert (Hl0 : lines g0 = lines g) by apply gameLoop_pre_fields.
  assert (Hst : gameStarted g' = false <->
                snd (updateBallsList (lines g0) dt (balls g0)) = true).
  { rewrite Hg', updateBalls_started, Hs0. simpl.
    destruct (snd _); simpl; split; congruence. }
  split.
  - rewrite Hst, updateBallsList_over, existsb_exists. split.
    + intros (b & Hin & Hb). exists b. split; [exact Hin|].
      now apply outOfBoundary_spec in Hb.
    + intros (b & Hin & Hb). exists b. split; [exact Hin|].
      now apply outOfBoundary_spec.
  - intros Hover. apply Hst in Hover.
    destruct (updateBallsList_abort _ _ _ Hover) as (pre & b & post & post' & H1 & H2 & H3).
    exists pre, b, post, post'. repeat split; auto.
    + rewrite Hg'. rewrite (proj1 (proj2 (proj2 (proj2 (proj2 (updateBalls_fields _ dt)))))).
      exact H2.
    + now apply outOfBoundary_spec in H3.
Qed.

(** Witness: the hypothesis holds right after the start button. *)
Lemma tick_gameover_iff_breach_witness :
  gameStarted (startGame initialGame 0) = true /\
  (let g0 := gameLoop_pre (startGame initialGame 0) 1 0 in
   let g' := gameLoop (startGame initialGame 0) 1 0 in
   (gameStarted g' = false <->
    exists b, In b (balls g0) /\
      (boundarySize / 2 - radius b < Rabs (x (position (moveBall 1 b))) \/
       boundarySize / 2 - radius b < Rabs (z (position (moveBall 1 b))))) /\
   (gameStarted g' = false ->
    exists pre b post post',
      balls g0 = pre ++ b :: post /\
      balls g' = pre ++ moveBall 1 b :: post' /\
      (boundarySize / 2 - radius b < Rabs (x (position (moveBall 1 b))) \/
       boundarySize / 2 - radius b < Rabs (z (position (moveBall 1 b)))))).
Proof.
  split; [reflexivity|].
  apply (tick_gameover_iff_breach (startGame initialGame 0) 1 0). reflexivity.
Defined.

(** ** Claim C5: on a running tick, a ball is spawned and [nextBallSpawn]
    advanced by [max(3, 8 - elapsedTime*0.1)] exactly when the updated
    [elapsedTime] exceeds [nextBallSpawn]; the increment is at least 3 and
    non-increasing in [elapsedTime]. *)
Theorem spawn_cadence (g : Game) (dt rnd : R) :
  gameStarted g = true ->
  let t := gameTime g + dt in
  let g' := gameLoop g dt rnd in
  (nextBallSpawn g < t ->
   List.length (balls g') = S (List.length (balls g)) /\
   nextBallSpawn g' = nextBallSpawn g + Rmax 3 (8 - t * 0.1)) /\
  (~ nextBallSpawn g < t ->
   List.length (balls g') = List.length (balls g) /\
   nextBallSpawn g' = nextBallSpawn g) /\
  (forall s, 3 <= Rmax 3 (8 - s * 0.1)) /\
  (forall s1 s2, s1 <= s2 -> Rmax 3 (8 - s2 * 0.1) <= Rmax 3 (8 - s1 * 0.1)).
Proof.
  intros Hs t g'.
  assert (Hg' : g' = updateBalls (gameLoop_pre g dt rnd) dt)
    by (unfold g', gameLoop; now rewrite Hs).
  destruct (updateBalls_fields (gameLoop_pre g dt rnd) dt) as (_ & _ & Hn & _ & Hb & _).
  rewrite <- Hg' in Hn, Hb.
  split; [|split; [|split]].
  - intros Hlt. rewrite Hb, updateBallsList_length, Hn.
    unfold gameLoop_pre. simpl. destruct (Rlt_dec _ _) as [_|n]; [|contradiction].
    simpl. rewrite length_app. simpl. split; [lia|reflexivity].
  - intros Hlt. rewrite Hb, updateBallsList_length, Hn.
    unfold gameLoop_pre. simpl. destruct (Rlt_dec _ _) as [c|_]; [contradiction|].
    split; reflexivity.
  - intros s. apply Rmax_l.
  - intros s1 s2 Hle. apply Rmax_lub; [apply Rmax_l|].
    eapply Rle_trans; [|apply Rmax_r]. lra.
Qed.

Lemma spawn_cadence_witness :
  gameStarted (startGame initialGame 0) = true /\
  (let t := gameTime (startGame initialGame 0) + 6 in
   let g' := gameLoop (startGame initialGame 0) 6 0 in
   (nextBallSpawn (startGame initialGame 0) < t ->
    List.length (balls g') = S (List.length (balls (startGame initialGame 0))) /\
    nextBallSpawn g' = nextBallSpawn (startGame initialGame 0) + Rmax 3 (8 - t * 0.1)) /\
   (~ nextBallSpawn (startGame initialGame 0) < t ->
    List.length (balls g') = List.length (balls (startGame initialGame 0)) /\
    nextBallSpawn g' = nextBallSpawn (startGame initialGame 0)) /\
   (forall s, 3 <= Rmax 3 (8 - s * 0.1)) /\
   (forall s1 s2, s1 <= s2 -> Rmax 3 (8 - s2 * 0.1) <= Rmax 3 (8 - s1 * 0.1))).
Proof.
  split; [reflexivity|].
  apply (spawn_cadence (startGame initialGame 0) 6 0). reflexivity.
Defined.

(** ** Claim C7: every spawn puts a ball at [(x, z) = (0, 0)] with velocity
    [(cos θ, sin θ) * (2 + elapsedTime*0.1)], and neither the difficulty ramp
    nor the spawn of a tick touches the balls already there. *)
Theorem spawn_frame :
  (forall (g : Game) (dt rnd : R),
     let t := gameTime g + dt in
     let theta := rnd * PI * 2 in
     exists extra,
       balls (gameLoop_pre g dt rnd) = balls g ++ extra /\
       (extra = [] \/
        exists b, extra = [b] /\ x (position b) = 0 /\ z (position b) = 0 /\
          velocity b = mkV (cos theta * (2 + t * 0.1)) 0 (sin theta * (2 + t * 0.1)))) /\
  (forall (g : Game) (rnd : R),
     let theta := rnd * PI * 2 in
     exists b, balls (startGame g rnd) = [b] /\
       x (position b) = 0 /\ z (position b) = 0 /\
       velocity b = mkV (cos theta * (2 + gameTime (startGame g rnd) * 0.1)) 0
                        (sin theta * (2 + gameTime (startGame g rnd) * 0.1))).
Proof.
  split.
  - intros g dt rnd t theta. unfold gameLoop_pre.
    destruct (Rlt_dec _ _); simpl.
    + eexists. split; [reflexivity|]. right. eexists. repeat split.
    + exists []. split; [symmetry; apply app_nil_r|]. now left.
  - intros g rnd. simpl. eexists. split; [reflexivity|].
    simpl. unfold spawnAngle. split; [reflexivity|split; [reflexivity|]].
    f_equal; ring.
Qed.

(** ** Claim C8: restarting from a game-over state gives the session state of
    a fresh start from Idle: time 0, speed 2, next spawn at 5, one ball and no
    barriers. *)
Theorem restart_is_fresh_start (g : Game) (rnd : R) :
  gameStarted g = false ->
  let g' := restartGame g rnd in
  let f := startGame initialGame rnd in
  gameStarted g' = gameStarted f /\ gameTime g' = gameTime f /\
  ballSpeed g' = ballSpeed f /\ ballCount g' = ballCount f /\
  nextBallSpawn g' = nextBallSpawn f /\ balls g' = balls f /\ lines g' = lines f /\
  gameTime g' = 0 /\ ballSpeed g' = 2 /\ nextBallSpawn g' = 5 /\
  List.length (balls g') = 1%nat /\ lines g' = [].
Proof.
  intros _ g' f. repeat split.
Qed.

Lemma restart_is_fresh_start_witness :
  gameStarted (gameOver (startGame initialGame 0)) = false /\
  (let g' := restartGame (gameOver (startGame initialGame 0)) 0 in
   let f := startGame initialGame 0 in
   gameStarted g' = gameStarted f /\ gameTime g' = gameTime f /\
   ballSpeed g' = ballSpeed f /\ ballCount g' = ballCount f /\
   nextBallSpawn g' = nextBallSpawn f /\ balls g' = balls f /\ lines g' = lines f /\
   gameTime g' = 0 /\ ballSpeed g' = 2 /\ nextBallSpawn g' = 5 /\
   List.length (balls g') = 1%nat /\ lines g' = []).
Proof.
  split; [reflexivity|].
  apply (restart_is_fresh_start (gameOver (startGame initialGame 0)) 0). reflexivity.
Defined.

(** ** Vector algebra *)

Lemma vec_eq a b : x a = x b -> y a = y b -> z a = z b -> a = b.
Proof. destruct a, b; simpl; intros; subst; reflexivity. Qed.

Lemma lengthSq_nonneg a : 0 <= lengthSq a.
Proof. unfold lengthSq, dot. nra. Qed.

Lemma lengthSq_zero a : lengthSq a = 0 -> a = mkV 0 0 0.
Proof.
  unfold lengthSq, dot. intros H. apply vec_eq; simpl; nra.
Qed.

Lemma vsub_neq_lengthSq a b : a <> b -> lengthSq (vsub b a) <> 0.
Proof.
  intros Hab H. apply lengthSq_zero in H. apply Hab.
  destruct a, b; unfold vsub in H; simpl in H. injection H; intros.
  apply vec_eq; simpl; lra.
Qed.

Lemma length_nonneg a : 0 <= length a.
Proof. apply sqrt_pos. Qed.

Lemma length_sq a : length a * length a = lengthSq a.
Proof. apply sqrt_sqrt, lengthSq_nonneg. Qed.

Lemma length_pos a : lengthSq a <> 0 -> 0 < length a.
Proof.
  intros H. apply sqrt_lt_R0. pose proof (lengthSq_nonneg a). lra.
Qed.

Lemma length_scale a c : length (multiplyScalar a c) = Rabs c * length a.
Proof.
  unfold length.
  replace (lengthSq (multiplyScalar a c)) with (Rsqr c * lengthSq a)
    by (unfold lengthSq, dot, Rsqr; simpl; ring).
  rewrite sqrt_mult by (apply Rle_0_sqr || apply lengthSq_nonneg).
  now rewrite sqrt_Rsqr_abs.
Qed.

Lemma normalize_nonzero a :
  lengthSq a <> 0 -> normalize a = multiplyScalar a (1 / length a).
Proof.
  intros H. unfold normalize, divideScalar.
  destruct (Req_EM_T (length a) 0) as [E|E]; [|reflexivity].
  pose proof (length_pos a H). lra.
Qed.

Lemma normalize_zero : normalize (mkV 0 0 0) = mkV 0 0 0.
Proof.
  unfold normalize, divideScalar, multiplyScalar. simpl.
  destruct (Req_EM_T _ _); apply vec_eq; simpl; ring.
Qed.

(** On a non-degenerate segment the division of line 352 is finite. *)
Lemma pointToLineDistance_nondeg p a b :
  a <> b ->
  let line := vsub b a in
  let t := Rmax 0 (Rmin 1 (dot (vsub p a) line / lengthSq line)) in
  pointToLineDistance p a b = Some (distanceTo p (vadd a (multiplyScalar line t))).
Proof.
  intros Hab line t. unfold pointToLineDistance, js_div.
  destruct (Req_EM_T (lengthSq (vsub b a)) 0) as [E|E].
  - exfalso. exact (vsub_neq_lengthSq a b Hab E).
  - reflexivity.
Qed.

Lemma pointToLineDistance_deg p a : pointToLineDistance p a a = None.
Proof.
  unfold pointToLineDistance, js_div.
  assert (H0 : lengthSq (vsub a a) = 0) by (unfold lengthSq, dot, vsub; simpl; ring).
  assert (H1 : dot (vsub p a) (vsub a a) = 0) by (unfold dot, vsub; simpl; ring).
  rewrite H0, H1. destruct (Req_EM_T 0 0); [reflexivity|contradiction].
Qed.

(** ** Claim C2, as the code has it: [pointToLineDistance] never raises; on a
    zero-length segment it computes [0 / 0] and returns [NaN] (which fails
    every [d < radius] test, so the segment never collides); on a segment with
    [a <> b] it returns the distance from [p] to [a + t (b - a)] with [t] the
    projection parameter clamped to [0, 1]. *)
Theorem pointToLineDistance_spec :
  (forall (p a : Vector3) (ball : Ball),
     pointToLineDistance p a a = None /\ collideSegment ball (mkSeg a a) = ball) /\
  (forall p a b : Vector3, a <> b ->
     let line := vsub b a in
     let t := Rmax 0 (Rmin 1 (dot (vsub p a) line / lengthSq line)) in
     0 <= t <= 1 /\
     pointToLineDistance p a b = Some (distanceTo p (vadd a (multiplyScalar line t)))).
Proof.
  split.
  - intros p a ball. split; [apply pointToLineDistance_deg|].
    unfold collideSegment. simpl. now rewrite pointToLineDistance_deg.
  - intros p a b Hab line t. split.
    + unfold t. split; [apply Rmax_l|].
      apply Rmax_lub; [lra|apply Rmin_l].
    + now apply pointToLineDistance_nondeg.
Qed.

Lemma pointToLineDistance_spec_witness :
  mkV 0 0.1 0 <> mkV 1 0.1 0 /\
  (let line := vsub (mkV 1 0.1 0) (mkV 0 0.1 0) in
   let t := Rmax 0 (Rmin 1 (dot (vsub (mkV 2 0.15 0) (mkV 0 0.1 0)) line / lengthSq line)) in
   0 <= t <= 1 /\
   pointToLineDistance (mkV 2 0.15 0) (mkV 0 0.1 0) (mkV 1 0.1 0) =
   Some (distanceTo (mkV 2 0.15 0) (vadd (mkV 0 0.1 0) (multiplyScalar line t)))).
Proof.
  assert (H : mkV 0 0.1 0 <> mkV 1 0.1 0) by (intros E; injection E; lra).
  split; [exact H|].
  exact (proj2 pointToLineDistance_spec (mkV 2 0.15 0) (mkV 0 0.1 0) (mkV 1 0.1 0) H).
Defined.

(** Counterexample to C2 as stated: on the zero-length segment at the origin,
    the distance of [(1, 0, 0)] is [NaN], not its distance 1 to [a]. *)
Lemma pointToLineDistance_degenerate_is_nan :
  pointToLineDistance (mkV 1 0 0) (mkV 0 0 0) (mkV 0 0 0) <>
  Some (distanceTo (mkV 1 0 0) (mkV 0 0 0)).
Proof. rewrite pointToLineDistance_deg. discriminate. Qed.

Lemma lengthSq_scale a c : lengthSq (multiplyScalar a c) = c * c * lengthSq a.
Proof. unfold lengthSq, dot, multiplyScalar. simpl. ring. Qed.

Lemma normalize_unit a : lengthSq a <> 0 -> lengthSq (normalize a) = 1.
Proof.
  intros H. rewrite normalize_nonzero by exact H. rewrite lengthSq_scale.
  pose proof (length_pos a H). rewrite <- length_sq. field. lra.
Qed.

Lemma lengthSq_reflect v n :
  lengthSq (reflect v n) = lengthSq v + 4 * dot v n * dot v n * (lengthSq n - 1).
Proof. unfold reflect, lengthSq, dot, vsub, multiplyScalar. simpl. ring. Qed.

(** ** Claim C6: reflection about a unit normal keeps the speed, and the
    normal [(-dir.z, 0, dir.x)] of a segment is a unit vector (for a segment
    of non-zero length drawn at one height, as every drawn segment is). *)
Theorem reflect_norm_preserving :
  (forall v n : Vector3, lengthSq n = 1 -> length (reflect v n) = length v) /\
  (forall segment : LineSegment,
     y (start segment) = y (end_ segment) -> start segment <> end_ segment ->
     length (segmentNormal segment) = 1).
Proof.
  split.
  - intros v n Hn. unfold length. rewrite lengthSq_reflect, Hn.
    f_equal. ring.
  - intros segment Hy Hne. unfold length.
    assert (HL : lengthSq (vsub (end_ segment) (start segment)) <> 0)
      by now apply vsub_neq_lengthSq.
    pose proof (normalize_unit _ HL) as Hu.
    assert (Hd : y (lineDirection segment) = 0).
    { unfold lineDirection. rewrite normalize_nonzero by exact HL.
      simpl. rewrite Hy. ring. }
    replace (lengthSq (segmentNormal segment)) with 1; [apply sqrt_1|].
    unfold segmentNormal. fold (lineDirection segment) in Hu.
    destruct (lineDirection segment) as [dx dy dz]. simpl in Hd. subst dy.
    rewrite <- Hu. unfold lengthSq, dot. simpl. ring.
Qed.

Lemma reflect_norm_preserving_witness :
  lengthSq (mkV 0 0 1) = 1 /\
  length (reflect (mkV 2 0 1) (mkV 0 0 1)) = length (mkV 2 0 1) /\
  (y (start (mkSeg (mkV 0 0.1 0) (mkV 1 0.1 0))) = y (end_ (mkSeg (mkV 0 0.1 0) (mkV 1 0.1 0))) /\
   start (mkSeg (mkV 0 0.1 0) (mkV 1 0.1 0)) <> end_ (mkSeg (mkV 0 0.1 0) (mkV 1 0.1 0)) /\
   length (segmentNormal (mkSeg (mkV 0 0.1 0) (mkV 1 0.1 0))) = 1).
Proof.
  assert (Hn : lengthSq (mkV 0 0 1) = 1) by (unfold lengthSq, dot; simpl; ring).
  assert (Hne : start (mkSeg (mkV 0 0.1 0) (mkV 1 0.1 0)) <> end_ (mkSeg (mkV 0 0.1 0) (mkV 1 0.1 0)))
    by (simpl; intros E; injection E; lra).
  split; [exact Hn|]. split; [exact (proj1 reflect_norm_preserving _ _ Hn)|].
  split; [reflexivity|]. split; [exact Hne|].
  exact (proj2 reflect_norm_preserving (mkSeg (mkV 0 0.1 0) (mkV 1 0.1 0)) eq_refl Hne).
Defined.

(** ** The positional correction of the collision response *)

Lemma dot_scale_r a b c : dot a (multiplyScalar b c) = c * dot a b.
Proof. unfold dot, multiplyScalar. simpl. ring. Qed.

(** The closest point of lines 339-341 is the foot of the perpendicular on the
    carrier line: [a + q (b - a)] with the unclamped parameter [q]. *)
Lemma closestPoint_foot p segment :
  start segment <> end_ segment ->
  let line := vsub (end_ segment) (start segment) in
  closestPoint p segment =
  vadd (start segment)
       (multiplyScalar line (dot (vsub p (start segment)) line / lengthSq line)).
Proof.
  intros Hab line.
  assert (HL : lengthSq line <> 0) by now apply vsub_neq_lengthSq.
  pose proof (length_pos line HL) as Hl. pose proof (length_sq line) as Hsq.
  unfold closestPoint, lineDirection. fold line.
  rewrite normalize_nonzero by exact HL. rewrite dot_scale_r.
  rewrite <- Hsq. apply vec_eq; simpl; field; lra.
Qed.

Lemma length_zero a : lengthSq a = 0 -> length a = 0.
Proof. intros H. unfold length. rewrite H. apply sqrt_0. Qed.

(** ** Extra: the collision response when the unclamped projection of the
    ball centre falls within the segment.  There the foot of the perpendicular
    is the clamped projection, the velocity is reflected, the push of a
    penetrating ball (distance [0 < d < radius]) is along the perpendicular
    from that foot, by [radius - d + 0.01], and it leaves the ball at distance
    [radius + 0.01] from the segment. *)
Theorem collideSegment_interior_push (ball : Ball) (segment : LineSegment) (d : R) :
  start segment <> end_ segment ->
  0 <= dot (vsub (position ball) (start segment)) (vsub (end_ segment) (start segment))
    <= lengthSq (vsub (end_ segment) (start segment)) ->
  pointToLineDistance (position ball) (start segment) (end_ segment) = Some d ->
  0 < d < radius ball ->
  let line := vsub (end_ segment) (start segment) in
  let t := dot (vsub (position ball) (start segment)) line / lengthSq line in
  let ball' := collideSegment ball segment in
  closestPoint (position ball) segment = vadd (start segment) (multiplyScalar line t) /\
  0 <= t <= 1 /\
  velocity ball' = reflect (velocity ball) (segmentNormal segment) /\
  position ball' =
    vadd (position ball)
         (multiplyScalar (normalize (vsub (position ball) (closestPoint (position ball) segment)))
                         (radius ball - d + 0.01)) /\
  pointToLineDistance (position ball') (start segment) (end_ segment) =
    Some (radius ball + 0.01).
Proof.
  intros Hab Hin Hd [Hpos Hlt] line t ball'.
  set (p := position ball) in *. set (a := start segment) in *.
  set (r := radius ball) in *.
  assert (HL : lengthSq line <> 0) by now apply vsub_neq_lengthSq.
  pose proof (lengthSq_nonneg line) as HL0.
  assert (Ht : 0 <= t <= 1).
  { unfold t. fold line in Hin. split.
    - apply Rmult_le_pos; [lra|]. apply Rlt_le, Rinv_0_lt_compat. lra.
    - apply (Rmult_le_reg_r (lengthSq line)); [lra|].
      unfold Rdiv. rewrite Rmult_assoc, Rinv_l by exact HL. lra. }
  assert (Hclamp : Rmax 0 (Rmin 1 t) = t).
  { rewrite Rmin_right by lra. apply Rmax_right. lra. }
  assert (Hcp := closestPoint_foot p segment Hab). fold line a t in Hcp.
  set (C := vadd a (multiplyScalar line t)) in *.
  pose proof (pointToLineDistance_nondeg p a (end_ segment) Hab) as Hnd.
  simpl in Hnd. fold line t in Hnd. rewrite Hclamp in Hnd. fold C in Hnd.
  rewrite Hd in Hnd. injection Hnd as Hdd.
  set (u := vsub p C).
  assert (Hu : lengthSq u <> 0).
  { intros E. apply length_zero in E. unfold distanceTo in Hdd. fold u in Hdd. lra. }
  assert (Hlu : length u = d) by (unfold distanceTo in Hdd; exact (eq_sym Hdd)).
  (* the step taken by [collideSegment] *)
  assert (Hb' : ball' = mkBall (vadd p (multiplyScalar (normalize (vsub p (closestPoint p segment)))
                                         (r - d + 0.01)))
                               (reflect (velocity ball) (segmentNormal segment)) r).
  { unfold ball', collideSegment. fold p a. rewrite Hd.
    destruct (Rlt_dec d (radius ball)) as [_|n]; [reflexivity|contradiction]. }
  split; [exact Hcp|]. split; [exact Ht|].
  rewrite Hb'. cbn [position velocity]. split; [reflexivity|]. split; [reflexivity|].
  rewrite Hcp. fold line t C u. rewrite normalize_nonzero by exact Hu. rewrite Hlu.
  set (m := r - d + 0.01).
  set (p' := vadd p (multiplyScalar (multiplyScalar u (1 / d)) m)).
  (* [u] is orthogonal to the segment, so the push keeps the projection *)
  assert (Horth : dot u line = 0).
  { assert (E : dot u line = dot (vsub p a) line - t * lengthSq line)
      by (unfold u, C, lengthSq, line, dot, vsub, vadd, multiplyScalar; simpl; ring).
    rewrite E. unfold t. field. exact HL. }
  assert (Hproj : dot (vsub p' a) line = dot (vsub p a) line).
  { assert (E : dot (vsub p' a) line = dot (vsub p a) line + m / d * dot u line)
      by (unfold p', dot, vsub, vadd, multiplyScalar; simpl; field; lra).
    rewrite E, Horth. ring. }
  pose proof (pointToLineDistance_nondeg p' a (end_ segment) Hab) as Hnd'.
  simpl in Hnd'. fold line in Hnd'. rewrite Hproj in Hnd'. fold t in Hnd'.
  rewrite Hclamp in Hnd'. fold C in Hnd'. rewrite Hnd'. f_equal.
  unfold distanceTo.
  replace (vsub p' C) with (multiplyScalar u (1 + m / d))
    by (unfold p', u; apply vec_eq; simpl; field; lra).
  rewrite length_scale, Hlu.
  rewrite Rabs_right by (apply Rle_ge; unfold m; apply Rplus_le_le_0_compat;
                         [lra| unfold Rdiv; apply Rmult_le_pos; [lra|];
                              apply Rlt_le, Rinv_0_lt_compat; lra]).
  unfold m. field. lra.
Qed.

(** ** Concrete evaluations on the segment from (0, 0.1, 0) to (1, 0.1, 0) *)

Lemma sqrt_eq_sq v r : 0 <= r -> v = r * r -> sqrt v = r.
Proof. intros Hr ->. apply sqrt_square. exact Hr. Qed.

Definition segA : Vector3 := mkV 0 0.1 0.
Definition segB : Vector3 := mkV 1 0.1 0.
Definition seg01 : LineSegment := mkSeg segA segB.

Lemma segA_segB : segA <> segB.
Proof. unfold segA, segB. intros E. injection E. lra. Qed.

Lemma seg01_distance p :
  pointToLineDistance p segA segB =
  Some (sqrt ((x p - Rmax 0 (Rmin 1 (x p))) * (x p - Rmax 0 (Rmin 1 (x p))) +
              (y p - 0.1) * (y p - 0.1) + z p * z p)).
Proof.
  rewrite (pointToLineDistance_nondeg p segA segB segA_segB).
  replace (dot (vsub p segA) (vsub segB segA) / lengthSq (vsub segB segA)) with (x p)
    by (unfold segA, segB, lengthSq, dot, vsub; simpl; field; lra).
  unfold distanceTo, length, lengthSq, dot, segA, segB, vsub, vadd, multiplyScalar.
  simpl. do 2 f_equal; ring.
Qed.

Lemma seg01_closestPoint p : closestPoint p seg01 = mkV (x p) 0.1 0.
Proof.
  rewrite (closestPoint_foot p seg01 segA_segB). unfold seg01. simpl.
  replace (dot (vsub p segA) (vsub segB segA) / lengthSq (vsub segB segA)) with (x p)
    by (unfold segA, segB, lengthSq, dot, vsub; simpl; field; lra).
  unfold segA, segB, vsub, vadd, multiplyScalar. apply vec_eq; simpl; ring.
Qed.

(** A ball just beyond the end [(1, 0.1, 0)] of the segment, at horizontal
    distance 0.12 and height gap 0.05: its distance is 0.13. *)
Definition ballBeyondEnd : Ball := mkBall (mkV 1.12 0.15 0) (mkV 0 0 (-1)) 0.15.

Lemma ballBeyondEnd_distance :
  pointToLineDistance (position ballBeyondEnd) segA segB = Some 0.13.
Proof.
  rewrite seg01_distance. simpl.
  rewrite (Rmin_left 1 1.12) by lra. rewrite (Rmax_right 0 1) by lra.
  f_equal. apply sqrt_eq_sq; lra.
Qed.

(** The push is vertical, from [(1.12, 0.15, 0)] to [(1.12, 0.18, 0)]. *)
Lemma ballBeyondEnd_pushed :
  position (collideSegment ballBeyondEnd seg01) = mkV 1.12 0.18 0.
Proof.
  unfold collideSegment.
  change (start seg01) with segA. change (end_ seg01) with segB.
  rewrite ballBeyondEnd_distance.
  destruct (Rlt_dec 0.13 (radius ballBeyondEnd)) as [_|n]; [|simpl in n; lra].
  cbn [position radius]. rewrite seg01_closestPoint. simpl.
  assert (Hu : lengthSq (vsub (mkV 1.12 0.15 0) (mkV 1.12 0.1 0)) <> 0)
    by (unfold lengthSq, dot, vsub; simpl; lra).
  rewrite normalize_nonzero by exact Hu.
  replace (length (vsub (mkV 1.12 0.15 0) (mkV 1.12 0.1 0))) with 0.05
    by (symmetry; unfold length, lengthSq, dot, vsub; simpl; apply sqrt_eq_sq; lra).
  unfold vadd, vsub, multiplyScalar. apply vec_eq; simpl; lra.
Qed.

(** Claim C1: the push starts from the unclamped projection [(1.12, 0.1, 0)]
    rather than from the clamped closest point [(1, 0.1, 0)].  The ball is
    penetrating (0.13 < 0.15), and after its push its distance to the segment
    is [sqrt 0.0208 < 0.15]: it is still penetrating. *)
Lemma collide_near_endpoint_still_penetrating :
  pointToLineDistance (position ballBeyondEnd) segA segB = Some 0.13 /\
  0.13 < radius ballBeyondEnd /\
  exists d', pointToLineDistance (position (collideSegment ballBeyondEnd seg01)) segA segB = Some d' /\
             d' < radius ballBeyondEnd.
Proof.
  split; [exact ballBeyondEnd_distance|]. split; [simpl; lra|].
  rewrite ballBeyondEnd_pushed, seg01_distance. eexists. split; [reflexivity|].
  simpl. rewrite (Rmin_left 1 1.12) by lra. rewrite (Rmax_right 0 1) by lra.
  rewrite <- (sqrt_square 0.15) by lra. apply sqrt_lt_1; lra.
Qed.

(** A ball above the middle of the segment: horizontal offset 0.12, height
    gap 0.05, distance 0.13. *)
Definition ballMid : Ball := mkBall (mkV 0.5 0.15 0.12) (mkV 0 0 (-1)) 0.15.

Lemma ballMid_distance : pointToLineDistance (position ballMid) segA segB = Some 0.13.
Proof.
  rewrite seg01_distance. simpl.
  rewrite (Rmin_right 1 0.5) by lra. rewrite (Rmax_right 0 0.5) by lra.
  f_equal. apply sqrt_eq_sq; lra.
Qed.

Lemma collideSegment_interior_push_witness :
  start seg01 <> end_ seg01 /\
  0 <= dot (vsub (position ballMid) (start seg01)) (vsub (end_ seg01) (start seg01))
    <= lengthSq (vsub (end_ seg01) (start seg01)) /\
  pointToLineDistance (position ballMid) (start seg01) (end_ seg01) = Some 0.13 /\
  0 < 0.13 < radius ballMid /\
  pointToLineDistance (position (collideSegment ballMid seg01)) (start seg01) (end_ seg01) =
    Some (radius ballMid + 0.01).
Proof.
  assert (H1 : start seg01 <> end_ seg01) by exact segA_segB.
  assert (H2 : 0 <= dot (vsub (position ballMid) (start seg01)) (vsub (end_ seg01) (start seg01))
                 <= lengthSq (vsub (end_ seg01) (start seg01)))
    by (unfold lengthSq, dot, vsub; simpl; lra).
  assert (H3 : pointToLineDistance (position ballMid) (start seg01) (end_ seg01) = Some 0.13)
    by exact ballMid_distance.
  assert (H4 : 0 < 0.13 < radius ballMid) by (simpl; lra).
  split; [exact H1|]. split; [exact H2|]. split; [exact H3|]. split; [exact H4|].
  exact (proj2 (proj2 (proj2 (proj2 (collideSegment_interior_push ballMid seg01 0.13 H1 H2 H3 H4))))).
Defined.

(** ** A ball centred on the carrier line: three.js normalizes the zero
    vector to the zero vector, so the push is zero. *)
Lemma collideSegment_at_foot ball segment d :
  pointToLineDistance (position ball) (start segment) (end_ segment) = Some d ->
  d < radius ball ->
  position ball = closestPoint (position ball) segment ->
  collideSegment ball segment =
  mkBall (position ball) (reflect (velocity ball) (segmentNormal segment)) (radius ball).
Proof.
  intros Hd Hlt Hc. unfold collideSegment. rewrite Hd.
  destruct (Rlt_dec d (radius ball)) as [_|n]; [|contradiction].
  assert (H0 : vsub (position ball) (closestPoint (position ball) segment) = mkV 0 0 0)
    by (rewrite <- Hc; apply vec_eq; simpl; ring).
  rewrite H0, normalize_zero. f_equal.
  apply vec_eq; simpl; ring.
Qed.

(** ** Heights: balls stay at height at least 0.15 with no vertical speed,
    drawn points and segments at height 0.1. *)
Definition ball_ok (b : Ball) : Prop := 0.15 <= y (position b) /\ y (velocity b) = 0.
Definition seg_ok (s : LineSegment) : Prop := y (start s) = 0.1 /\ y (end_ s) = 0.1.
Definition line_ok (l : Line) : Prop := Forall seg_ok (segments l).
Definition heights_ok (g : Game) : Prop :=
  Forall ball_ok (balls g) /\ Forall line_ok (lines g) /\
  Forall (fun p => y p = 0.1) (currentLinePoints g).

Lemma normalize_y_nonneg v : 0 <= y v -> 0 <= y (normalize v).
Proof.
  intros Hv. unfold normalize, divideScalar, multiplyScalar. simpl.
  apply Rmult_le_pos; [exact Hv|].
  destruct (Req_EM_T (length v) 0) as [_|E]; [lra|].
  pose proof (length_nonneg v). unfold Rdiv. rewrite Rmult_1_l.
  apply Rlt_le, Rinv_0_lt_compat. lra.
Qed.

Lemma lineDirection_y s : seg_ok s -> y (lineDirection s) = 0.
Proof.
  intros [H1 H2]. unfold lineDirection, normalize, divideScalar, multiplyScalar. simpl.
  rewrite H1, H2. ring.
Qed.

Lemma closestPoint_y p s : seg_ok s -> y (closestPoint p s) = 0.1.
Proof.
  intros Hs. unfold closestPoint. cbn zeta. unfold vadd, multiplyScalar. cbn [y].
  rewrite lineDirection_y by exact Hs.
  destruct Hs as [H1 _]. rewrite H1. ring.
Qed.

Lemma y_scale v c : y (multiplyScalar v c) = y v * c.
Proof. reflexivity. Qed.

Lemma collideSegment_ok b s : ball_ok b -> seg_ok s -> ball_ok (collideSegment b s).
Proof.
  intros [Hp Hv] Hs. unfold collideSegment.
  destruct (pointToLineDistance _ _ _) as [d|]; [|split; assumption].
  destruct (Rlt_dec d (radius b)) as [Hlt|_]; [|split; assumption].
  split; cbn [position velocity].
  - assert (Hn : 0 <= y (normalize (vsub (position b) (closestPoint (position b) s))))
      by (apply normalize_y_nonneg; unfold vsub; cbn [y];
          rewrite closestPoint_y by exact Hs; lra).
    cbn [vadd y]. rewrite y_scale.
    assert (0 <= y (normalize (vsub (position b) (closestPoint (position b) s)))
                 * (radius b - d + 0.01)) by (apply Rmult_le_pos; lra).
    lra.
  - unfold reflect, vsub, multiplyScalar, segmentNormal. cbn [y]. rewrite Hv. ring.
Qed.

Lemma checkBallLineCollision_ok ls b :
  Forall line_ok ls -> ball_ok b -> ball_ok (checkBallLineCollision ls b).
Proof.
  unfold checkBallLineCollision. revert b.
  induction ls as [|l ls IH]; intros b Hls Hb; simpl; [exact Hb|].
  inversion Hls as [|? ? Hl Hls']; subst.
  apply IH; [exact Hls'|]. unfold line_ok in Hl.
  clear IH Hls Hls'. revert b Hb.
  induction (segments l) as [|s ss IHs]; intros b Hb; simpl; [exact Hb|].
  inversion Hl; subst. apply IHs; [assumption|]. now apply collideSegment_ok.
Qed.

Lemma moveBall_ok dt b : ball_ok b -> ball_ok (moveBall dt b).
Proof. intros [Hp Hv]. split; simpl; [rewrite Hv; lra|exact Hv]. Qed.

Lemma updateBallsList_ok ls dt bs :
  Forall line_ok ls -> Forall ball_ok bs -> Forall ball_ok (fst (updateBallsList ls dt bs)).
Proof.
  intros Hls. induction bs as [|b rest IH]; intros Hbs; simpl; [constructor|].
  inversion Hbs; subst.
  destruct (updateBallsList ls dt rest) as [rest' over]; simpl in IH.
  destruct over; [constructor; auto|].
  destruct (outOfBoundary (moveBall dt b)); constructor; auto using moveBall_ok.
  apply checkBallLineCollision_ok; auto using moveBall_ok.
Qed.

Lemma newBall_ok sp rnd : ball_ok (newBall sp rnd).
Proof. split; simpl; lra. Qed.

Lemma segmentsOf_ok pts : Forall (fun p => y p = 0.1) pts -> Forall seg_ok (segmentsOf pts).
Proof.
  induction pts as [|p rest IH]; intros H; simpl; [constructor|].
  destruct rest as [|q rest']; [constructor|].
  inversion H as [|? ? Hp Hr]; subst. inversion Hr; subst.
  constructor; [split; assumption|]. apply IH. exact Hr.
Qed.

(** ** Invariants of reachable states *)

Lemma existsb_false_forall {A} (f : A -> bool) l :
  existsb f l = false -> forall a, In a l -> f a = false.
Proof.
  induction l as [|b l IH]; simpl; [tauto|].
  intros H a [<-|Hin]; apply Bool.orb_false_iff in H; [tauto|].
  apply IH; tauto.
Qed.

Lemma existsb_forall_false {A} (f : A -> bool) l :
  (forall a, In a l -> f a = false) -> existsb f l = false.
Proof.
  induction l as [|b l IH]; simpl; [reflexivity|].
  intros H. rewrite (H b (or_introl eq_refl)). apply IH. auto.
Qed.

Definition lines_in_bounds (g : Game) : Prop :=
  gameStarted g = true ->
  forall l, In l (lines g) -> existsb segmentOutOfBounds (segments l) = false.

Lemma checkLineOutOfBounds_fields h :
  let h' := checkLineOutOfBounds h in
  balls h' = balls h /\ lines h' = lines h /\
  currentLinePoints h' = currentLinePoints h /\ isDrawing h' = isDrawing h /\
  lines_in_bounds h' /\
  (gameStarted h' = false <->
   gameStarted h = false \/
   existsb (fun line => existsb segmentOutOfBounds (segments line)) (lines h) = true).
Proof.
  intros h'. unfold h', checkLineOutOfBounds, lines_in_bounds.
  destruct (existsb _ (lines h)) eqn:E; simpl.
  - split; [reflexivity|]. split; [reflexivity|]. split; [reflexivity|].
    split; [reflexivity|]. split; [intros H; discriminate|].
    split; [intros _; now right|reflexivity].
  - split; [reflexivity|]. split; [reflexivity|]. split; [reflexivity|].
    split; [reflexivity|]. split.
    + intros _ l Hl. exact (existsb_false_forall _ _ E l Hl).
    + split; [intros H; now left|intros [H|H]; [exact H|discriminate]].
Qed.

Lemma finalizeLine_fields g :
  let g' := finalizeLine g in
  balls g' = balls g /\ currentLinePoints g' = currentLinePoints g /\
  isDrawing g' = isDrawing g /\
  (lines g' = lines g \/ lines g' = lines g ++ [mkLine (segmentsOf (currentLinePoints g))]) /\
  (lines_in_bounds g -> lines_in_bounds g').
Proof.
  intros g'. unfold g', finalizeLine.
  destruct (Nat.ltb _ 2); [repeat split; auto|].
  destruct (checkLineOutOfBounds_fields
              (set_lines g (lines g ++ [mkLine (segmentsOf (currentLinePoints g))])))
    as (H1 & H2 & H3 & H4 & H5 & _).
  simpl in *. repeat split; auto.
Qed.

Lemma reachable_inv g : reachable g -> heights_ok g /\ lines_in_bounds g.
Proof.
  unfold heights_ok, lines_in_bounds.
  induction 1 as [| g rnd _ IH _ | g rnd _ IH _ | g dt rnd _ IH _ _
                 | g px pz _ IH | g px pz _ IH | g _ IH].
  - split; [split; [constructor|split; constructor]|intros H; discriminate].
  - destruct IH as [(_ & _ & Hp) _]. split; [split; [|split]|].
    + constructor; [apply newBall_ok|constructor].
    + constructor.
    + exact Hp.
    + intros _ l [].
  - destruct IH as [(_ & _ & Hp) _]. split; [split; [|split]|].
    + constructor; [apply newBall_ok|constructor].
    + constructor.
    + exact Hp.
    + intros _ l [].
  - unfold gameLoop. case_eq (gameStarted g); intros Hs; [|exact IH].
    destruct IH as [(Hb & Hl & Hp) Hin].
    destruct (gameLoop_pre_fields g dt rnd) as (Hs0 & _ & Hl0 & _ & Hp0).
    destruct (updateBalls_fields (gameLoop_pre g dt rnd) dt)
      as (_ & _ & _ & Hl1 & Hb1 & _ & Hp1).
    rewrite Hl1, Hb1, Hp1, Hl0, Hp0. split; [split; [|split]|].
    + apply updateBallsList_ok; [exact Hl|].
      unfold gameLoop_pre. destruct (Rlt_dec _ _); simpl; [|exact Hb].
      apply Forall_app. split; [exact Hb|]. constructor; [apply newBall_ok|constructor].
    + exact Hl.
    + exact Hp.
    + intros _. apply Hin. exact Hs.
  - unfold onPointerDown. case_eq (gameStarted g); intros Hs; [|exact IH].
    destruct IH as [(Hb & Hl & _) Hin].
    split; [split; [exact Hb|split; [exact Hl|]]|exact Hin].
    constructor; [reflexivity|constructor].
  - unfold onPointerMove. case_eq (gameStarted g && isDrawing g)%bool; intros Hs; [|exact IH].
    destruct (nth_error _ _); [|exact IH].
    destruct (Rlt_dec _ _); [|exact IH].
    destruct IH as [(Hb & Hl & Hp) Hin].
    split; [split; [exact Hb|split; [exact Hl|]]|exact Hin].
    apply Forall_app. split; [exact Hp|]. constructor; [reflexivity|constructor].
  - unfold onPointerUp. case_eq (gameStarted g && isDrawing g)%bool; intros Hs; [|exact IH].
    destruct IH as [(Hb & Hl & Hp) Hin].
    set (g1 := set_drawing g false (currentLinePoints g)).
    assert (Hg1 : (Forall ball_ok (balls g1) /\ Forall line_ok (lines g1) /\
                   Forall (fun p => y p = 0.1) (currentLinePoints g1)) /\ lines_in_bounds g1)
      by (simpl; repeat split; auto).
    assert (Hg2 : (Forall ball_ok (balls (finalizeLine g1)) /\
                   Forall line_ok (lines (finalizeLine g1))) /\
                  lines_in_bounds (finalizeLine g1)).
    { destruct (finalizeLine_fields g1) as (F1 & F2 & F3 & F4 & F5).
      destruct Hg1 as [(Hb1 & Hl1 & Hp1) Hin1].
      split; [split|]; [rewrite F1; exact Hb1| |exact (F5 Hin1)].
      destruct F4 as [F4|F4]; rewrite F4; [exact Hl1|].
      apply Forall_app. split; [exact Hl1|]. constructor; [|constructor].
      apply segmentsOf_ok. exact Hp1. }
    destruct (Nat.ltb 1 _).
    + destruct Hg2 as [[H1 H2] H3].
      split; [split; [exact H1|split; [exact H2|constructor]]|exact H3].
    + destruct Hg1 as [[H1 [H2 _]] H3].
      split; [split; [exact H1|split; [exact H2|constructor]]|exact H3].
Qed.

(** ** Claim C9, as the code has it: the push direction is three.js
    [normalize], which maps the zero vector to the zero vector; a ball centred
    exactly on the closest point is left where it is (only its velocity is
    reflected).  In play this never happens: ball centres stay at height at
    least 0.15, the closest point is at the segments' height 0.1. *)
Theorem push_direction_zero_safe :
  (forall (ball : Ball) (segment : LineSegment) (d : R),
     pointToLineDistance (position ball) (start segment) (end_ segment) = Some d ->
     d < radius ball ->
     position ball = closestPoint (position ball) segment ->
     position (collideSegment ball segment) = position ball /\
     velocity (collideSegment ball segment) = reflect (velocity ball) (segmentNormal segment)) /\
  (forall g : Game, reachable g ->
     forall b l s, In b (balls g) -> In l (lines g) -> In s (segments l) ->
     position b <> closestPoint (position b) s).
Proof.
  split.
  - intros ball segment d Hd Hlt Hc.
    rewrite (collideSegment_at_foot ball segment d Hd Hlt Hc). split; reflexivity.
  - intros g Hr b l s Hb Hl Hs E.
    destruct (reachable_inv g Hr) as [(Hbs & Hls & _) _].
    rewrite Forall_forall in Hbs, Hls.
    destruct (Hbs b Hb) as [Hy _].
    pose proof (Hls l Hl) as Hl'. unfold line_ok in Hl'. rewrite Forall_forall in Hl'.
    pose proof (closestPoint_y (position b) s (Hl' s Hs)) as Hcy.
    rewrite <- E in Hcy. lra.
Qed.

(** A ball whose centre lies on the segment itself. *)
Definition ballOnSegment : Ball := mkBall (mkV 0.5 0.1 0) (mkV 0 0 1) 0.15.

Lemma ballOnSegment_distance :
  pointToLineDistance (position ballOnSegment) segA segB = Some 0.
Proof.
  rewrite seg01_distance. simpl.
  rewrite (Rmin_right 1 0.5) by lra. rewrite (Rmax_right 0 0.5) by lra.
  f_equal. apply sqrt_eq_sq; lra.
Qed.

Lemma ballOnSegment_at_foot :
  position ballOnSegment = closestPoint (position ballOnSegment) seg01.
Proof. rewrite seg01_closestPoint. reflexivity. Qed.

Lemma push_direction_zero_safe_witness :
  pointToLineDistance (position ballOnSegment) (start seg01) (end_ seg01) = Some 0 /\
  0 < radius ballOnSegment /\
  position ballOnSegment = closestPoint (position ballOnSegment) seg01 /\
  position (collideSegment ballOnSegment seg01) = position ballOnSegment.
Proof.
  assert (H1 : pointToLineDistance (position ballOnSegment) (start seg01) (end_ seg01) = Some 0)
    by exact ballOnSegment_distance.
  assert (H2 : 0 < radius ballOnSegment) by (simpl; lra).
  split; [exact H1|]. split; [exact H2|]. split; [exact ballOnSegment_at_foot|].
  exact (proj1 (proj1 push_direction_zero_safe ballOnSegment seg01 0 H1 H2 ballOnSegment_at_foot)).
Defined.

(** Counterexample to C9 as stated: for the ball centred on the segment the
    normalized push direction is the zero vector and the resulting position is
    the finite point (0.5, 0.1, 0) it started from. *)
Lemma push_at_foot_is_finite :
  pointToLineDistance (position ballOnSegment) segA segB = Some 0 /\
  0 < radius ballOnSegment /\
  position ballOnSegment = closestPoint (position ballOnSegment) seg01 /\
  normalize (vsub (position ballOnSegment) (closestPoint (position ballOnSegment) seg01)) =
    mkV 0 0 0 /\
  position (collideSegment ballOnSegment seg01) = mkV 0.5 0.1 0.
Proof.
  split; [exact ballOnSegment_distance|]. split; [simpl; lra|].
  split; [exact ballOnSegment_at_foot|]. split.
  - rewrite seg01_closestPoint. simpl.
    replace (vsub (mkV 0.5 0.1 0) (mkV 0.5 0.1 0)) with (mkV 0 0 0)
      by (apply vec_eq; simpl; ring).
    exact normalize_zero.
  - rewrite (collideSegment_at_foot ballOnSegment seg01 0 ballOnSegment_distance)
      by (exact ballOnSegment_at_foot || (simpl; lra)).
    reflexivity.
Qed.

(** ** Finalizing a barrier *)

Lemma segmentOutOfBounds_spec s :
  segmentOutOfBounds s = true <->
  boundarySize / 2 < Rabs (x (start s)) \/ boundarySize / 2 < Rabs (z (start s)) \/
  boundarySize / 2 < Rabs (x (end_ s)) \/ boundarySize / 2 < Rabs (z (end_ s)).
Proof.
  unfold segmentOutOfBounds.
  destruct (Rlt_dec _ (Rabs (x (start s)))); [split; auto|].
  destruct (Rlt_dec _ (Rabs (z (start s)))); [split; auto|].
  destruct (Rlt_dec _ (Rabs (x (end_ s)))); [split; auto|].
  destruct (Rlt_dec _ (Rabs (z (end_ s)))); [split; auto|].
  split; [discriminate|]. intros [H|[H|[H|H]]]; contradiction.
Qed.

(** ** Claim C4: in a running game, finalizing a drawn line (at least two
    points) always adds its barrier, and ends the game exactly when one of its
    segment endpoints has [|x|] or [|z|] above [boundarySize/2]. *)
Theorem finalize_boundary (g : Game) :
  reachable g -> gameStarted g = true -> (2 <= List.length (currentLinePoints g))%nat ->
  let newLine := mkLine (segmentsOf (currentLinePoints g)) in
  let g' := finalizeLine g in
  lines g' = lines g ++ [newLine] /\
  (gameStarted g' = false <->
   exists s, In s (segments newLine) /\
     (boundarySize / 2 < Rabs (x (start s)) \/ boundarySize / 2 < Rabs (z (start s)) \/
      boundarySize / 2 < Rabs (x (end_ s)) \/ boundarySize / 2 < Rabs (z (end_ s)))).
Proof.
  intros Hr Hs Hlen newLine g'.
  destruct (reachable_inv g Hr) as [_ Hin].
  assert (Hg' : g' = checkLineOutOfBounds (set_lines g (lines g ++ [newLine]))).
  { unfold g', finalizeLine. destruct (Nat.ltb_spec (List.length (currentLinePoints g)) 2);
      [lia|reflexivity]. }
  destruct (checkLineOutOfBounds_fields (set_lines g (lines g ++ [newLine])))
    as (_ & Hl & _ & _ & _ & Hst).
  rewrite <- Hg' in Hl, Hst. simpl in Hl, Hst.
  split; [exact Hl|]. rewrite Hst, Hs.
  rewrite existsb_app.
  rewrite (existsb_forall_false _ (lines g) (Hin Hs)). simpl.
  rewrite Bool.orb_false_r, existsb_exists.
  split.
  - intros [H|(s & Hin' & Hout)]; [discriminate|].
    exists s. split; [exact Hin'|]. now apply segmentOutOfBounds_spec.
  - intros (s & Hin' & Hout). right. exists s. split; [exact Hin'|].
    now apply segmentOutOfBounds_spec.
Qed.

(** A running game in which the segment from (0, 0.1, 0) to (1, 0.1, 0) has
    been drawn and not yet released. *)
Definition gDrawn : Game :=
  onPointerMove (onPointerDown (startGame initialGame 0) 0 0) 1 0.

Lemma gDrawn_reachable : reachable gDrawn.
Proof.
  unfold gDrawn. apply reach_move, reach_down, reach_start; [exact reach_init|lra].
Qed.

Lemma gDrawn_state :
  gameStarted gDrawn = true /\ currentLinePoints gDrawn = [mkV 0 0.1 0; mkV 1 0.1 0].
Proof.
  unfold gDrawn, onPointerMove. simpl.
  replace (distanceTo (mkV 0 0.1 0) (mkV 1 0.1 0)) with 1
    by (symmetry; unfold distanceTo, length, lengthSq, dot, vsub; simpl;
        apply sqrt_eq_sq; lra).
  destruct (Rlt_dec 0.1 1) as [_|n]; [|lra].
  split; reflexivity.
Qed.

Lemma finalize_boundary_witness :
  reachable gDrawn /\ gameStarted gDrawn = true /\
  (2 <= List.length (currentLinePoints gDrawn))%nat /\
  lines (finalizeLine gDrawn) = lines gDrawn ++ [mkLine (segmentsOf (currentLinePoints gDrawn))].
Proof.
  destruct gDrawn_state as [H1 H2].
  assert (H3 : (2 <= List.length (currentLinePoints gDrawn))%nat) by (rewrite H2; simpl; lia).
  split; [exact gDrawn_reachable|]. split; [exact H1|]. split; [exact H3|].
  exact (proj1 (finalize_boundary gDrawn gDrawn_reachable H1 H3)).
Defined.

(** ** A barrier near the boundary: a scenario over two ticks *)

Ltac solve_abs :=
  unfold Rabs in *;
  repeat match goal with
         | |- context [Rcase_abs ?a] => destruct (Rcase_abs a)
         | H : context [Rcase_abs ?a] |- _ => destruct (Rcase_abs a)
         end; lra.

Definition ball0 : Ball := mkBall (mkV 0 0.15 0) (mkV 2 0 0) 0.15.
Definition segV : LineSegment := mkSeg (mkV 4.22 0.1 (-1)) (mkV 4.22 0.1 1).
Definition lineV : Line := mkLine [segV].
Definition ballMoved : Ball := mkBall (mkV 4.34 0.15 0) (mkV 2 0 0) 0.15.
Definition ballPushed : Ball :=
  mkBall (mkV (4.34 + 0.36 / 13) (0.15 + 0.15 / 13) 0) (mkV (-2) 0 0) 0.15.

(** Start with [Math.random() = 0] (the ball heads along +x at speed 2), then
    draw from (4.22, -1) to (4.22, 1) and release. *)
Definition gLine : Game :=
  onPointerUp (onPointerMove (onPointerDown (startGame initialGame 0) 4.22 (-1)) 4.22 1).

Lemma newBall_0 : newBall 2 0 = ball0.
Proof.
  unfold newBall, spawnAngle, ball0. rewrite !Rmult_0_l, cos_0, sin_0.
  f_equal. apply vec_eq; simpl; ring.
Qed.

Lemma segV_in_bounds : segmentOutOfBounds segV = false.
Proof.
  case_eq (segmentOutOfBounds segV); intros H; [|reflexivity].
  apply segmentOutOfBounds_spec in H. unfold boundarySize, worldSize in H.
  simpl in H. exfalso. solve_abs.
Qed.

Lemma gLine_eq : gLine = mkGame true 0 2 1 5 [ball0] [lineV] false [].
Proof.
  unfold gLine, onPointerMove. simpl.
  replace (distanceTo (mkV 4.22 0.1 (-1)) (mkV 4.22 0.1 1)) with 2
    by (symmetry; unfold distanceTo, length, lengthSq, dot, vsub; simpl;
        apply sqrt_eq_sq; lra).
  destruct (Rlt_dec 0.1 2) as [_|n]; [|lra].
  unfold onPointerUp, finalizeLine, checkLineOutOfBounds. simpl.
  fold segV. rewrite segV_in_bounds. simpl.
  cbv [set_drawing set_lines onPointerDown startGame spawnBall set_balls initialGame].
  simpl. rewrite newBall_0. reflexivity.
Qed.

Lemma gLine_reachable : reachable gLine.
Proof.
  unfold gLine. apply reach_up, reach_move, reach_down, reach_start; [exact reach_init|lra].
Qed.

Lemma moveBall_ball0 : moveBall 2.17 ball0 = ballMoved.
Proof. unfold moveBall, ballMoved. simpl. f_equal. apply vec_eq; simpl; lra. Qed.

Lemma ballMoved_inside : outOfBoundary ballMoved = false.
Proof.
  case_eq (outOfBoundary ballMoved); intros H; [|reflexivity].
  apply outOfBoundary_spec in H. unfold boundarySize, worldSize in H.
  simpl in H. exfalso. solve_abs.
Qed.

Lemma segV_distance :
  pointToLineDistance (position ballMoved) (start segV) (end_ segV) = Some 0.13.
Proof.
  assert (Hne : start segV <> end_ segV) by (simpl; intros E; injection E; lra).
  rewrite (pointToLineDistance_nondeg _ _ _ Hne).
  replace (dot (vsub (position ballMoved) (start segV)) (vsub (end_ segV) (start segV)))
    with 2 by (unfold dot, vsub; simpl; lra).
  replace (lengthSq (vsub (end_ segV) (start segV))) with 4
    by (unfold lengthSq, dot, vsub; simpl; lra).
  replace (2 / 4) with 0.5 by lra.
  rewrite (Rmin_right 1 0.5) by lra. rewrite (Rmax_right 0 0.5) by lra.
  f_equal. unfold distanceTo, length, lengthSq, dot, vsub, vadd, multiplyScalar. simpl.
  apply sqrt_eq_sq; lra.
Qed.

Lemma segV_closestPoint : closestPoint (position ballMoved) segV = mkV 4.22 0.1 0.
Proof.
  assert (Hne : start segV <> end_ segV) by (simpl; intros E; injection E; lra).
  rewrite (closestPoint_foot _ _ Hne).
  replace (dot (vsub (position ballMoved) (start segV)) (vsub (end_ segV) (start segV)))
    with 2 by (unfold dot, vsub; simpl; lra).
  replace (lengthSq (vsub (end_ segV) (start segV))) with 4
    by (unfold lengthSq, dot, vsub; simpl; lra).
  replace (2 / 4) with 0.5 by lra.
  unfold vadd, vsub, multiplyScalar. apply vec_eq; simpl; lra.
Qed.

Lemma segV_normal : segmentNormal segV = mkV (-1) 0 0.
Proof.
  unfold segmentNormal, lineDirection.
  assert (HL : lengthSq (vsub (end_ segV) (start segV)) <> 0)
    by (unfold lengthSq, dot, vsub; simpl; lra).
  rewrite normalize_nonzero by exact HL.
  replace (length (vsub (end_ segV) (start segV))) with 2
    by (symmetry; unfold length, lengthSq, dot, vsub; simpl; apply sqrt_eq_sq; lra).
  apply vec_eq; simpl; lra.
Qed.

Lemma collide_ballMoved : collideSegment ballMoved segV = ballPushed.
Proof.
  unfold collideSegment. rewrite segV_distance.
  destruct (Rlt_dec 0.13 (radius ballMoved)) as [_|n]; [|simpl in n; lra].
  rewrite segV_closestPoint, segV_normal.
  assert (Hu : lengthSq (vsub (position ballMoved) (mkV 4.22 0.1 0)) <> 0)
    by (unfold lengthSq, dot, vsub; simpl; lra).
  rewrite normalize_nonzero by exact Hu.
  replace (length (vsub (position ballMoved) (mkV 4.22 0.1 0))) with 0.13
    by (symmetry; unfold length, lengthSq, dot, vsub; simpl; apply sqrt_eq_sq; lra).
  unfold ballPushed, reflect, dot. simpl. f_equal; apply vec_eq; simpl; lra.
Qed.

(** First tick, [deltaTime = 2.17]: the ball reaches (4.34, 0.15, 0), inside
    the limit 4.35, hits the barrier and is pushed out to x = 4.34 + 0.36/13. *)
Lemma tick1_eq :
  gameLoop gLine 2.17 0 =
  mkGame true (0 + 2.17) (2 + (0 + 2.17) * 0.1) 1 5 [ballPushed] [lineV] false [].
Proof.
  rewrite gLine_eq. unfold gameLoop. cbn [gameStarted].
  unfold gameLoop_pre. cbn [gameTime nextBallSpawn].
  destruct (Rlt_dec 5 (0 + 2.17)) as [c|_]; [lra|].
  unfold updateBalls. cbn [lines balls updateBallsList].
  rewrite moveBall_ball0, ballMoved_inside.
  change (checkBallLineCollision [lineV] ballMoved) with (collideSegment ballMoved segV).
  rewrite collide_ballMoved. reflexivity.
Qed.

Lemma ballPushed_moved_inside : outOfBoundary (moveBall 0.1 ballPushed) = false.
Proof.
  case_eq (outOfBoundary (moveBall 0.1 ballPushed)); intros H; [|reflexivity].
  apply outOfBoundary_spec in H. unfold boundarySize, worldSize in H.
  simpl in H. exfalso. solve_abs.
Qed.

(** The two ticks: after the first the game runs with a ball beyond the limit
    [boundarySize/2 - radius]; the second tick, [deltaTime = 0.1], moves it
    back inside and the game still runs. *)
Lemma pushed_out_scenario :
  reachable gLine /\
  gameStarted (gameLoop gLine 2.17 0) = true /\
  (exists b, In b (balls (gameLoop gLine 2.17 0)) /\
     boundarySize / 2 - radius b < Rabs (x (position b))) /\
  gameStarted (gameLoop (gameLoop gLine 2.17 0) 0.1 0) = true.
Proof.
  split; [exact gLine_reachable|]. rewrite tick1_eq. split; [reflexivity|]. split.
  - exists ballPushed. split; [now left|].
    unfold boundarySize, worldSize. simpl. solve_abs.
  - unfold gameLoop. cbn [gameStarted].
    rewrite updateBalls_started, updateBallsList_over.
    unfold gameLoop_pre. cbn [gameTime nextBallSpawn gameStarted balls].
    destruct (Rlt_dec 5 (0 + 2.17 + 0.1)) as [c|_]; [lra|].
    cbn [gameStarted balls existsb]. rewrite ballPushed_moved_inside. reflexivity.
Qed.

(** ** Claim C10, as the code has it: a running tick ends the game exactly when
    some ball, moved by [velocity * deltaTime] in that tick, is beyond the
    limit; the push of the collision response comes after that check, so a
    reachable game can finish a tick still running with a ball beyond the
    limit [boundarySize/2 - radius]. *)
Theorem breach_checked_after_integration :
  (forall g dt rnd, gameStarted g = true ->
     gameStarted (gameLoop g dt rnd) =
     negb (existsb (fun b => outOfBoundary (moveBall dt b)) (balls (gameLoop_pre g dt rnd)))) /\
  (exists g dt rnd, reachable g /\ gameStarted g = true /\ 0 <= dt /\ 0 <= rnd < 1 /\
     gameStarted (gameLoop g dt rnd) = true /\
     exists b, In b (balls (gameLoop g dt rnd)) /\
       boundarySize / 2 - radius b < Rabs (x (position b))).
Proof.
  split.
  - intros g dt rnd Hs. unfold gameLoop. rewrite Hs.
    rewrite updateBalls_started, updateBallsList_over.
    rewrite (proj1 (gameLoop_pre_fields g dt rnd)), Hs. reflexivity.
  - destruct pushed_out_scenario as (Hr & H1 & Hb & _).
    exists gLine, 2.17, 0. split; [exact Hr|]. split; [rewrite gLine_eq; reflexivity|].
    split; [lra|]. split; [lra|]. split; [exact H1|exact Hb].
Qed.

(** Counterexample to C10 as stated: after the first tick the game runs with a
    ball beyond the limit, and the following tick, with [deltaTime = 0.1],
    does not end the game: the reflected velocity has carried the ball back
    inside before the check. *)
Lemma push_breach_not_caught_next_tick :
  reachable gLine /\
  gameStarted (gameLoop gLine 2.17 0) = true /\
  (exists b, In b (balls (gameLoop gLine 2.17 0)) /\
     boundarySize / 2 - radius b < Rabs (x (position b))) /\
  gameStarted (gameLoop (gameLoop gLine 2.17 0) 0.1 0) = true.
Proof. exact pushed_out_scenario. Qed.

(** * Further properties of the game core *)

(** ** Speeds, drawn points and the spawn count in reachable states *)

(** A segment of a barrier or of the stroke in progress is longer than the
    0.1 spacing that [onPointerMove] enforces between drawn points. *)
Definition seg_long (s : LineSegment) : Prop := 0.1 < distanceTo (start s) (end_ s).
Definition lines_long (ls : list Line) : Prop := Forall (fun l => Forall seg_long (segments l)) ls.
Definition ball_speed_ok (sp : R) (b : Ball) : Prop :=
  radius b = 0.15 /\ 2 <= length (velocity b) <= sp.

Definition session_ok (g : Game) : Prop :=
  0 <= gameTime g /\ ballSpeed g = 2 + gameTime g * 0.1 /\
  Forall (ball_speed_ok (ballSpeed g)) (balls g) /\
  ((isDrawing g = false /\ currentLinePoints g = []) \/
   (isDrawing g = true /\ currentLinePoints g <> [])) /\
  Forall seg_long (segmentsOf (currentLinePoints g)) /\
  lines_long (lines g) /\
  5 + 3 * (INR (List.length (balls g)) - 1) <= nextBallSpawn g /\
  ((List.length (balls g) <= 1)%nat \/ 3 * (INR (List.length (balls g)) - 1) + 2 < gameTime g) /\
  (gameStarted g = true -> balls g <> []).

Lemma seg_long_neq s : seg_long s -> start s <> end_ s.
Proof.
  unfold seg_long, distanceTo, length. intros H E. rewrite E in H.
  replace (lengthSq (vsub (end_ s) (end_ s))) with 0 in H
    by (unfold lengthSq, dot, vsub; simpl; ring).
  rewrite sqrt_0 in H. lra.
Qed.

Lemma segmentNormal_unit s :
  y (start s) = y (end_ s) -> start s <> end_ s -> lengthSq (segmentNormal s) = 1.
Proof.
  intros Hy Hne.
  assert (HL : lengthSq (vsub (end_ s) (start s)) <> 0) by now apply vsub_neq_lengthSq.
  pose proof (normalize_unit _ HL) as Hu.
  assert (Hd : y (lineDirection s) = 0).
  { unfold lineDirection. rewrite normalize_nonzero by exact HL. simpl. rewrite Hy. ring. }
  unfold segmentNormal. fold (lineDirection s) in Hu.
  destruct (lineDirection s) as [dx dy dz]. simpl in Hd. subst dy.
  rewrite <- Hu. unfold lengthSq, dot. simpl. ring.
Qed.

Lemma collideSegment_speed b s :
  seg_ok s -> seg_long s ->
  radius (collideSegment b s) = radius b /\
  length (velocity (collideSegment b s)) = length (velocity b).
Proof.
  intros [H1 H2] Hl. unfold collideSegment.
  destruct (pointToLineDistance _ _ _) as [d|]; [|split; reflexivity].
  destruct (Rlt_dec d (radius b)); [|split; reflexivity].
  split; [reflexivity|]. cbn [velocity].
  unfold length. rewrite lengthSq_reflect.
  rewrite segmentNormal_unit by (congruence || now apply seg_long_neq).
  f_equal. ring.
Qed.

Lemma fold_collide_speed ss b :
  Forall seg_ok ss -> Forall seg_long ss ->
  radius (fold_left collideSegment ss b) = radius b /\
  length (velocity (fold_left collideSegment ss b)) = length (velocity b).
Proof.
  revert b. induction ss as [|s ss IH]; intros b H1 H2; simpl; [split; reflexivity|].
  inversion H1 as [|? ? Ha H1']; subst. inversion H2 as [|? ? Hb H2']; subst.
  destruct (IH (collideSegment b s) H1' H2') as [E1 E2].
  destruct (collideSegment_speed b s Ha Hb) as [F1 F2].
  split; congruence.
Qed.

Lemma checkBallLineCollision_speed ls b :
  Forall line_ok ls -> lines_long ls ->
  radius (checkBallLineCollision ls b) = radius b /\
  length (velocity (checkBallLineCollision ls b)) = length (velocity b).
Proof.
  unfold checkBallLineCollision. revert b.
  induction ls as [|l ls IH]; intros b H1 H2; simpl; [split; reflexivity|].
  inversion H1 as [|? ? Ha H1']; subst. inversion H2 as [|? ? Hb H2']; subst.
  destruct (IH (fold_left collideSegment (segments l) b) H1' H2') as [E1 E2].
  destruct (fold_collide_speed (segments l) b Ha Hb) as [F1 F2].
  split; congruence.
Qed.

Lemma updateBallsList_speed ls dt bs sp :
  Forall line_ok ls -> lines_long ls ->
  Forall (ball_speed_ok sp) bs -> Forall (ball_speed_ok sp) (fst (updateBallsList ls dt bs)).
Proof.
  intros Hls Hlong. induction bs as [|b rest IH]; intros Hbs; simpl; [constructor|].
  inversion Hbs as [|? ? Hb Hrest]; subst.
  destruct (updateBallsList ls dt rest) as [rest' over]; simpl in IH.
  assert (Hm : ball_speed_ok sp (moveBall dt b)) by exact Hb.
  destruct over; [constructor; auto|].
  destruct (outOfBoundary (moveBall dt b)); constructor; auto.
  destruct (checkBallLineCollision_speed ls (moveBall dt b) Hls Hlong) as [E1 E2].
  destruct Hm as [M1 M2]. split; [congruence|rewrite E2; exact M2].
Qed.

Lemma ball_speed_ok_mono sp sp' bs :
  sp <= sp' -> Forall (ball_speed_ok sp) bs -> Forall (ball_speed_ok sp') bs.
Proof.
  intros H. apply Forall_impl. intros b [H1 [H2 H3]]. split; [exact H1|split; lra].
Qed.

Lemma newBall_speed sp rnd : 0 <= sp -> length (velocity (newBall sp rnd)) = sp.
Proof.
  intros H. unfold newBall, length, lengthSq, dot. simpl.
  set (a := spawnAngle rnd).
  apply sqrt_eq_sq; [exact H|].
  pose proof (sin2_cos2 a) as E. unfold Rsqr in E.
  transitivity (sp * sp * (sin a * sin a + cos a * cos a)); [ring|rewrite E; ring].
Qed.

Lemma newBall_speed_ok sp rnd : 2 <= sp -> ball_speed_ok sp (newBall sp rnd).
Proof.
  intros H. split; [reflexivity|]. rewrite newBall_speed by lra. lra.
Qed.

Lemma segmentsOf_snoc pts p q :
  nth_error pts (List.length pts - 1) = Some p ->
  segmentsOf (pts ++ [q]) = segmentsOf pts ++ [mkSeg p q].
Proof.
  induction pts as [|a rest IH]; intros H; [discriminate|].
  destruct rest as [|b rest'].
  - simpl in H. injection H as <-. reflexivity.
  - transitivity (mkSeg a b :: segmentsOf ((b :: rest') ++ [q])); [reflexivity|].
    rewrite IH; [reflexivity|].
    simpl in H |- *. rewrite Nat.sub_0_r. exact H.
Qed.

Lemma nth_error_last_some (pts : list Vector3) :
  pts <> [] -> exists p, nth_error pts (List.length pts - 1) = Some p.
Proof.
  intros H. destruct (nth_error pts (List.length pts - 1)) as [p|] eqn:E; [now exists p|].
  apply nth_error_None in E. destruct pts; [contradiction|simpl in E; lia].
Qed.

Lemma finalizeLine_clock g :
  gameTime (finalizeLine g) = gameTime g /\ ballSpeed (finalizeLine g) = ballSpeed g /\
  nextBallSpawn (finalizeLine g) = nextBallSpawn g.
Proof.
  unfold finalizeLine, checkLineOutOfBounds.
  destruct (Nat.ltb _ 2); [tauto|]. destruct (existsb _ _); simpl; tauto.
Qed.

Lemma updateBalls_session_ok g dt :
  Forall line_ok (lines g) -> session_ok g -> session_ok (updateBalls g dt).
Proof.
  intros Hl (T0 & Sp & Bs & Dr & Sg & Ll & Nx & Ct & Ne).
  destruct (updateBalls_fields g dt) as (F1 & F2 & F3 & F4 & F5 & F6 & F7).
  pose proof (updateBallsList_length (lines g) dt (balls g)) as Len.
  unfold session_ok. rewrite F1, F2, F3, F4, F5, F6, F7, Len.
  split; [exact T0|]. split; [exact Sp|].
  split; [apply updateBallsList_speed; assumption|].
  split; [exact Dr|]. split; [exact Sg|]. split; [exact Ll|].
  split; [exact Nx|]. split; [exact Ct|].
  intros Hs. rewrite updateBalls_started in Hs. apply andb_prop in Hs as [Hs _].
  intros E. apply (Ne Hs). apply length_zero_iff_nil. rewrite <- Len, E. reflexivity.
Qed.

Lemma gameLoop_pre_session_ok g dt rnd :
  session_ok g -> 0 <= dt -> session_ok (gameLoop_pre g dt rnd).
Proof.
  intros (T0 & Sp & Bs & Dr & Sg & Ll & Nx & Ct & Ne) Hdt.
  assert (Bs' : Forall (ball_speed_ok (2 + (gameTime g + dt) * 0.1)) (balls g))
    by (apply (ball_speed_ok_mono (ballSpeed g)); [lra|exact Bs]).
  unfold gameLoop_pre, session_ok. cbn zeta.
  destruct (Rlt_dec _ _) as [Hsp|Hsp];
    unfold spawnBall, set_balls;
    cbn [gameStarted gameTime ballSpeed nextBallSpawn balls lines isDrawing
         currentLinePoints] in *.
  - rewrite length_app, plus_INR. simpl (INR (List.length [_])).
    split; [lra|]. split; [reflexivity|].
    split; [apply Forall_app; split; [exact Bs'|constructor; [apply newBall_speed_ok; lra|constructor]]|].
    split; [exact Dr|]. split; [exact Sg|]. split; [exact Ll|].
    pose proof (Rmax_l 3 (8 - (gameTime g + dt) * 0.1)).
    split; [lra|]. split; [right; lra|].
    intros _ E. apply app_eq_nil in E. destruct E as [_ E]. discriminate.
  - split; [lra|]. split; [reflexivity|]. split; [exact Bs'|].
    split; [exact Dr|]. split; [exact Sg|]. split; [exact Ll|].
    split; [exact Nx|]. split; [destruct Ct; [left|right; lra]; assumption|].
    exact Ne.
Qed.

Lemma reachable_session_ok g : reachable g -> session_ok g.
Proof.
  induction 1 as [| g rnd _ IH _ | g rnd _ IH _ | g dt rnd Hr IH Hdt _
                 | g px pz _ IH | g px pz _ IH | g _ IH].
  - unfold session_ok, initialGame. simpl.
    split; [lra|]. split; [lra|]. split; [constructor|]. split; [left; split; reflexivity|].
    split; [constructor|]. split; [constructor|]. split; [lra|]. split; [left; lia|].
    intros H; discriminate.
  - destruct IH as (_ & _ & _ & Dr & Sg & _).
    unfold session_ok, startGame, spawnBall, set_balls. simpl.
    split; [lra|]. split; [lra|].
    split; [constructor; [apply newBall_speed_ok; lra|constructor]|].
    split; [exact Dr|]. split; [exact Sg|]. split; [constructor|].
    split; [lra|]. split; [left; lia|]. intros _; discriminate.
  - destruct IH as (_ & _ & _ & Dr & Sg & _).
    unfold session_ok, restartGame, startGame, spawnBall, set_balls. simpl.
    split; [lra|]. split; [lra|].
    split; [constructor; [apply newBall_speed_ok; lra|constructor]|].
    split; [exact Dr|]. split; [exact Sg|]. split; [constructor|].
    split; [lra|]. split; [left; lia|]. intros _; discriminate.
  - unfold gameLoop. destruct (gameStarted g); [|exact IH].
    apply updateBalls_session_ok.
    + rewrite (proj1 (proj2 (proj2 (gameLoop_pre_fields g dt rnd)))).
      exact (proj1 (proj2 (proj1 (reachable_inv g Hr)))).
    + now apply gameLoop_pre_session_ok.
  - unfold onPointerDown. destruct (gameStarted g); [|exact IH].
    destruct IH as (T0 & Sp & Bs & Dr & Sg & Ll & Nx & Ct & Ne).
    unfold session_ok, set_drawing. cbn [gameStarted gameTime ballSpeed nextBallSpawn balls
                                         lines isDrawing currentLinePoints segmentsOf].
    split; [exact T0|]. split; [exact Sp|]. split; [exact Bs|].
    split; [right; split; [reflexivity|discriminate]|].
    split; [constructor|]. split; [exact Ll|]. split; [exact Nx|]. split; [exact Ct|].
    exact Ne.
  - unfold onPointerMove. destruct (gameStarted g && isDrawing g)%bool; [|exact IH].
    destruct (nth_error _ _) as [p|] eqn:Hp; [|exact IH].
    destruct (Rlt_dec _ _) as [Hd|]; [|exact IH].
    destruct IH as (T0 & Sp & Bs & Dr & Sg & Ll & Nx & Ct & Ne).
    unfold session_ok, set_drawing. cbn [gameStarted gameTime ballSpeed nextBallSpawn balls
                                         lines isDrawing currentLinePoints].
    split; [exact T0|]. split; [exact Sp|]. split; [exact Bs|].
    split; [right; split; [reflexivity|]|].
    { intros E. apply app_eq_nil in E. destruct E as [_ E]. discriminate. }
    split; [rewrite (segmentsOf_snoc _ _ _ Hp); apply Forall_app; split;
            [exact Sg|constructor; [exact Hd|constructor]]|].
    split; [exact Ll|]. split; [exact Nx|]. split; [exact Ct|]. exact Ne.
  - unfold onPointerUp. case_eq (gameStarted g && isDrawing g)%bool; intros Hs; [|exact IH].
    destruct IH as (T0 & Sp & Bs & Dr & Sg & Ll & Nx & Ct & Ne).
    set (g1 := set_drawing g false (currentLinePoints g)).
    assert (Hg2 : forall g2, g2 = g1 \/ g2 = finalizeLine g1 ->
              session_ok (set_drawing g2 (isDrawing g2) [])).
    { intros g2 Hg2.
      assert (E : gameTime g2 = gameTime g /\ ballSpeed g2 = ballSpeed g /\
                  nextBallSpawn g2 = nextBallSpawn g /\ balls g2 = balls g /\
                  isDrawing g2 = false /\
                  (lines g2 = lines g \/
                   lines g2 = lines g ++ [mkLine (segmentsOf (currentLinePoints g))])).
      { destruct Hg2 as [-> | ->]; [simpl; tauto|].
        destruct (finalizeLine_clock g1) as (C1 & C2 & C3).
        destruct (finalizeLine_fields g1) as (F1 & F2 & F3 & F4 & _).
        rewrite C1, C2, C3, F1, F3. simpl. tauto. }
      destruct E as (E1 & E2 & E3 & E4 & E5 & E6).
      unfold session_ok, set_drawing. cbn [gameStarted gameTime ballSpeed nextBallSpawn balls
                                           lines isDrawing currentLinePoints segmentsOf].
      rewrite E1, E2, E3, E4, E5.
      split; [exact T0|]. split; [exact Sp|]. split; [exact Bs|].
      split; [left; split; reflexivity|]. split; [constructor|].
      split; [destruct E6 as [-> | ->]; [exact Ll|]|].
      { apply Forall_app. split; [exact Ll|]. constructor; [exact Sg|constructor]. }
      split; [exact Nx|]. split; [exact Ct|].
      intros _. apply Ne. apply andb_prop in Hs. tauto. }
    destruct (Nat.ltb 1 _); apply Hg2; auto.
Qed.

(** The game right after the first start with [Math.random() = 0]. *)
Lemma gStart_reachable : reachable (startGame initialGame 0).
Proof. apply reach_start; [exact reach_init|lra]. Qed.

(** Extra: in every reachable state [ballSpeed] is [2 + 0.1 * gameTime]
    and every ball has radius 0.15 and a speed between 2 and [ballSpeed]:
    reflections off barriers never change a ball's speed. *)
Theorem ball_speed_bounds (g : Game) :
  reachable g ->
  0 <= gameTime g /\ ballSpeed g = 2 + gameTime g * 0.1 /\
  forall b, In b (balls g) -> radius b = 0.15 /\ 2 <= length (velocity b) <= ballSpeed g.
Proof.
  intros Hr. destruct (reachable_session_ok g Hr) as (T0 & Sp & Bs & _).
  split; [exact T0|]. split; [exact Sp|].
  intros b Hb. rewrite Forall_forall in Bs. exact (Bs b Hb).
Qed.

Lemma ball_speed_bounds_witness :
  reachable (startGame initialGame 0) /\
  ballSpeed (startGame initialGame 0) = 2 + gameTime (startGame initialGame 0) * 0.1.
Proof.
  split; [exact gStart_reachable|].
  exact (proj1 (proj2 (ball_speed_bounds (startGame initialGame 0) gStart_reachable))).
Defined.

(** Extra: in every reachable state every segment of every barrier is longer
    than 0.1, so [pointToLineDistance] on it is always a finite number. *)
Theorem barrier_segments_finite (g : Game) :
  reachable g ->
  forall l s, In l (lines g) -> In s (segments l) ->
  0.1 < distanceTo (start s) (end_ s) /\
  forall p, exists d, pointToLineDistance p (start s) (end_ s) = Some d.
Proof.
  intros Hr l s Hl Hs. destruct (reachable_session_ok g Hr) as (_ & _ & _ & _ & _ & Ll & _).
  unfold lines_long in Ll. rewrite Forall_forall in Ll.
  pose proof (Ll l Hl) as Hl'. rewrite Forall_forall in Hl'.
  pose proof (Hl' s Hs) as Hlong.
  split; [exact Hlong|]. intros p.
  rewrite (pointToLineDistance_nondeg p _ _ (seg_long_neq s Hlong)).
  eexists. reflexivity.
Qed.

Lemma barrier_segments_finite_witness :
  reachable gLine /\ In lineV (lines gLine) /\ In segV (segments lineV) /\
  0.1 < distanceTo (start segV) (end_ segV).
Proof.
  assert (H1 : In lineV (lines gLine)) by (rewrite gLine_eq; now left).
  assert (H2 : In segV (segments lineV)) by now left.
  split; [exact gLine_reachable|]. split; [exact H1|]. split; [exact H2|].
  exact (proj1 (barrier_segments_finite gLine gLine_reachable lineV segV H1 H2)).
Defined.

(** Extra: in every reachable state the stroke buffer is empty when no stroke
    is being drawn and non-empty while one is, so the [lastPoint] lookup of
    [onPointerMove] always finds a point; consecutive drawn points are more
    than 0.1 apart. *)
Theorem stroke_buffer_consistent (g : Game) :
  reachable g ->
  (isDrawing g = false -> currentLinePoints g = []) /\
  (isDrawing g = true ->
     exists p, nth_error (currentLinePoints g) (List.length (currentLinePoints g) - 1) = Some p) /\
  (forall s, In s (segmentsOf (currentLinePoints g)) -> 0.1 < distanceTo (start s) (end_ s)).
Proof.
  intros Hr. destruct (reachable_session_ok g Hr) as (_ & _ & _ & Dr & Sg & _).
  split; [|split].
  - intros H. destruct Dr as [[_ E]|[E _]]; [exact E|congruence].
  - intros H. destruct Dr as [[E _]|[_ E]]; [congruence|].
    now apply nth_error_last_some.
  - rewrite Forall_forall in Sg. exact Sg.
Qed.

Lemma stroke_buffer_consistent_witness :
  reachable gDrawn /\ isDrawing gDrawn = true /\
  exists p, nth_error (currentLinePoints gDrawn) (List.length (currentLinePoints gDrawn) - 1) = Some p.
Proof.
  assert (H : isDrawing gDrawn = true).
  { unfold gDrawn, onPointerMove. simpl.
    destruct (Rlt_dec _ _); reflexivity. }
  split; [exact gDrawn_reachable|]. split; [exact H|].
  exact (proj1 (proj2 (stroke_buffer_consistent gDrawn gDrawn_reachable)) H).
Defined.

(** Extra: in every reachable state a running game has a ball, and with [n]
    balls either [n <= 1] or [3 (n - 1) + 2 < gameTime]: after the first ball
    at most one more every 3 seconds, the first not before 5 seconds;
    [nextBallSpawn] is at least [5 + 3 (n - 1)]. *)
Theorem spawn_count_bound (g : Game) :
  reachable g ->
  (gameStarted g = true -> (1 <= List.length (balls g))%nat) /\
  ((List.length (balls g) <= 1)%nat \/ 3 * (INR (List.length (balls g)) - 1) + 2 < gameTime g) /\
  5 + 3 * (INR (List.length (balls g)) - 1) <= nextBallSpawn g.
Proof.
  intros Hr. destruct (reachable_session_ok g Hr) as (_ & _ & _ & _ & _ & _ & Nx & Ct & Ne).
  split; [|split; [exact Ct|exact Nx]].
  intros Hs. specialize (Ne Hs). destruct (balls g); [contradiction|simpl; lia].
Qed.

Lemma spawn_count_bound_witness :
  reachable (startGame initialGame 0) /\
  5 + 3 * (INR (List.length (balls (startGame initialGame 0))) - 1) <=
    nextBallSpawn (startGame initialGame 0).
Proof.
  split; [exact gStart_reachable|].
  exact (proj2 (proj2 (spawn_count_bound (startGame initialGame 0) gStart_reachable))).
Defined.

(** ** Balls lifted over the barriers

    The push of the collision response points from the closest point, at the
    barriers' height 0.1, to the ball centre, at height at least 0.15: it has
    an upward component, and nothing ever moves a ball down. *)

Lemma length_ge_abs_y v : Rabs (y v) <= length v.
Proof.
  unfold length. rewrite <- sqrt_Rsqr_abs. apply sqrt_le_1_alt.
  unfold Rsqr, lengthSq, dot. nra.
Qed.

Lemma collideSegment_raises b s :
  ball_ok b -> seg_ok s ->
  (exists d, pointToLineDistance (position b) (start s) (end_ s) = Some d /\ d < radius b) ->
  y (position b) < y (position (collideSegment b s)).
Proof.
  intros [Hp _] Hs (d & Hd & Hlt). unfold collideSegment. rewrite Hd.
  destruct (Rlt_dec d (radius b)) as [_|n]; [|contradiction].
  cbn [position vadd y]. rewrite y_scale.
  set (v := vsub (position b) (closestPoint (position b) s)).
  assert (Hy : y v = y (position b) - 0.1)
    by (unfold v, vsub; cbn [y]; rewrite closestPoint_y by exact Hs; reflexivity).
  assert (HL : lengthSq v <> 0)
    by (unfold lengthSq, dot in *; intros E; nra).
  rewrite normalize_nonzero by exact HL. rewrite y_scale, Hy.
  pose proof (length_pos v HL).
  assert (0 < (y (position b) - 0.1) * (1 / length v)).
  { apply Rmult_lt_0_compat; [lra|]. unfold Rdiv. rewrite Rmult_1_l.
    apply Rinv_0_lt_compat. lra. }
  assert (0 < (y (position b) - 0.1) * (1 / length v) * (radius b - d + 0.01))
    by (apply Rmult_lt_0_compat; lra).
  lra.
Qed.

Lemma collideSegment_above b s :
  seg_ok s -> radius b <= y (position b) - 0.1 -> collideSegment b s = b.
Proof.
  intros [H1 H2] Hh. unfold collideSegment.
  destruct (pointToLineDistance _ _ _) as [d|] eqn:E; [|reflexivity].
  destruct (Rlt_dec d (radius b)) as [Hlt|_]; [exfalso|reflexivity].
  unfold pointToLineDistance in E.
  destruct (js_max _ _) as [t| | |]; try discriminate.
  injection E as <-. unfold distanceTo in Hlt.
  pose proof (length_ge_abs_y
    (vsub (position b) (vadd (start s) (multiplyScalar (vsub (end_ s) (start s)) t)))) as Hy.
  cbn [vsub vadd multiplyScalar y] in Hy. rewrite H1, H2 in Hy.
  revert Hy. solve_abs.
Qed.

Definition segX : LineSegment := mkSeg (mkV 2 0.1 (-1)) (mkV 2 0.1 1).
Definition lineX : Line := mkLine [segX].
Definition ballAt2 : Ball := mkBall (mkV 2 0.15 0) (mkV 2 0 0) 0.15.
Definition ballLifted : Ball := mkBall (mkV 2 0.26 0) (mkV (-2) 0 0) 0.15.

(** Start with [Math.random() = 0], draw from (2, -1) to (2, 1), release. *)
Definition gLiftLine : Game :=
  onPointerUp (onPointerMove (onPointerDown (startGame initialGame 0) 2 (-1)) 2 1).

Lemma segX_in_bounds : segmentOutOfBounds segX = false.
Proof.
  case_eq (segmentOutOfBounds segX); intros H; [|reflexivity].
  apply segmentOutOfBounds_spec in H. unfold boundarySize, worldSize in H.
  simpl in H. exfalso. solve_abs.
Qed.

Lemma gLiftLine_eq : gLiftLine = mkGame true 0 2 1 5 [ball0] [lineX] false [].
Proof.
  unfold gLiftLine, onPointerMove. simpl.
  replace (distanceTo (mkV 2 0.1 (-1)) (mkV 2 0.1 1)) with 2
    by (symmetry; unfold distanceTo, length, lengthSq, dot, vsub; simpl;
        apply sqrt_eq_sq; lra).
  destruct (Rlt_dec 0.1 2) as [_|n]; [|lra].
  unfold onPointerUp, finalizeLine, checkLineOutOfBounds. simpl.
  fold segX. rewrite segX_in_bounds. simpl.
  cbv [set_drawing set_lines onPointerDown startGame spawnBall set_balls initialGame].
  simpl. rewrite newBall_0. reflexivity.
Qed.

Lemma moveBall_ball0_1 : moveBall 1 ball0 = ballAt2.
Proof. unfold moveBall, ballAt2. simpl. f_equal. apply vec_eq; simpl; lra. Qed.

Lemma ballAt2_inside : outOfBoundary ballAt2 = false.
Proof.
  case_eq (outOfBoundary ballAt2); intros H; [|reflexivity].
  apply outOfBoundary_spec in H. unfold boundarySize, worldSize in H.
  simpl in H. exfalso. solve_abs.
Qed.

Lemma segX_distance :
  pointToLineDistance (position ballAt2) (start segX) (end_ segX) = Some 0.05.
Proof.
  assert (Hne : start segX <> end_ segX) by (simpl; intros E; injection E; lra).
  rewrite (pointToLineDistance_nondeg _ _ _ Hne).
  replace (dot (vsub (position ballAt2) (start segX)) (vsub (end_ segX) (start segX)))
    with 2 by (unfold dot, vsub; simpl; lra).
  replace (lengthSq (vsub (end_ segX) (start segX))) with 4
    by (unfold lengthSq, dot, vsub; simpl; lra).
  replace (2 / 4) with 0.5 by lra.
  rewrite (Rmin_right 1 0.5) by lra. rewrite (Rmax_right 0 0.5) by lra.
  f_equal. unfold distanceTo, length, lengthSq, dot, vsub, vadd, multiplyScalar. simpl.
  apply sqrt_eq_sq; lra.
Qed.

Lemma segX_closestPoint : closestPoint (position ballAt2) segX = mkV 2 0.1 0.
Proof.
  assert (Hne : start segX <> end_ segX) by (simpl; intros E; injection E; lra).
  rewrite (closestPoint_foot _ _ Hne).
  replace (dot (vsub (position ballAt2) (start segX)) (vsub (end_ segX) (start segX)))
    with 2 by (unfold dot, vsub; simpl; lra).
  replace (lengthSq (vsub (end_ segX) (start segX))) with 4
    by (unfold lengthSq, dot, vsub; simpl; lra).
  replace (2 / 4) with 0.5 by lra.
  unfold vadd, vsub, multiplyScalar. apply vec_eq; simpl; lra.
Qed.

Lemma segX_normal : segmentNormal segX = mkV (-1) 0 0.
Proof.
  unfold segmentNormal, lineDirection.
  assert (HL : lengthSq (vsub (end_ segX) (start segX)) <> 0)
    by (unfold lengthSq, dot, vsub; simpl; lra).
  rewrite normalize_nonzero by exact HL.
  replace (length (vsub (end_ segX) (start segX))) with 2
    by (symmetry; unfold length, lengthSq, dot, vsub; simpl; apply sqrt_eq_sq; lra).
  apply vec_eq; simpl; lra.
Qed.

Lemma collide_ballAt2 : collideSegment ballAt2 segX = ballLifted.
Proof.
  unfold collideSegment. rewrite segX_distance.
  destruct (Rlt_dec 0.05 (radius ballAt2)) as [_|n]; [|simpl in n; lra].
  rewrite segX_closestPoint, segX_normal.
  assert (Hu : lengthSq (vsub (position ballAt2) (mkV 2 0.1 0)) <> 0)
    by (unfold lengthSq, dot, vsub; simpl; lra).
  rewrite normalize_nonzero by exact Hu.
  replace (length (vsub (position ballAt2) (mkV 2 0.1 0))) with 0.05
    by (symmetry; unfold length, lengthSq, dot, vsub; simpl; apply sqrt_eq_sq; lra).
  unfold ballLifted, reflect, dot. simpl. f_equal; apply vec_eq; simpl; lra.
Qed.

(** One tick of [deltaTime = 1]: the ball reaches (2, 0.15, 0), right above the
    barrier, and is pushed straight up to height 0.26. *)
Lemma lift_tick_eq :
  gameLoop gLiftLine 1 0 =
  mkGame true (0 + 1) (2 + (0 + 1) * 0.1) 1 5 [ballLifted] [lineX] false [].
Proof.
  rewrite gLiftLine_eq. unfold gameLoop. cbn [gameStarted].
  unfold gameLoop_pre. cbn [gameTime nextBallSpawn].
  destruct (Rlt_dec 5 (0 + 1)) as [c|_]; [lra|].
  unfold updateBalls. cbn [lines balls updateBallsList].
  rewrite moveBall_ball0_1, ballAt2_inside.
  change (checkBallLineCollision [lineX] ballAt2) with (collideSegment ballAt2 segX).
  rewrite collide_ballAt2. reflexivity.
Qed.

Lemma lift_reachable : reachable (gameLoop gLiftLine 1 0).
Proof.
  apply reach_tick; [|lra|lra].
  unfold gLiftLine. apply reach_up, reach_move, reach_down, reach_start; [exact reach_init|lra].
Qed.

(** Extra: every collision response strictly raises the ball; a ball whose
    height above the barriers' plane is at least its radius is never deflected
    by any segment; and a running reachable game can hold such a ball, which
    then passes through every barrier. *)
Theorem ball_lifted_over_barriers :
  (forall b s, ball_ok b -> seg_ok s ->
     (exists d, pointToLineDistance (position b) (start s) (end_ s) = Some d /\ d < radius b) ->
     y (position b) < y (position (collideSegment b s))) /\
  (forall b s, seg_ok s -> radius b <= y (position b) - 0.1 -> collideSegment b s = b) /\
  (exists g b, reachable g /\ gameStarted g = true /\ In b (balls g) /\
     radius b <= y (position b) - 0.1).
Proof.
  split; [exact collideSegment_raises|]. split; [exact collideSegment_above|].
  exists (gameLoop gLiftLine 1 0), ballLifted.
  split; [exact lift_reachable|]. rewrite lift_tick_eq.
  split; [reflexivity|]. split; [now left|]. simpl. lra.
Qed.

Lemma ball_lifted_over_barriers_witness :
  seg_ok segX /\ radius ballLifted <= y (position ballLifted) - 0.1 /\
  collideSegment ballLifted segX = ballLifted.
Proof.
  assert (H1 : seg_ok segX) by (split; reflexivity).
  assert (H2 : radius ballLifted <= y (position ballLifted) - 0.1) by (simpl; lra).
  split; [exact H1|]. split; [exact H2|].
  exact (proj1 (proj2 ball_lifted_over_barriers) ballLifted segX H1 H2).
Defined.

(** ** Pointer coordinates and the camera *)

Lemma world_coord_props (c0 w c : R) :
  0 < w ->
  let u := (c - c0) / w in
  (c0 <= c <= c0 + w -> Rabs (worldSize * u - worldSize / 2) <= worldSize / 2) /\
  (boundarySize / 2 < Rabs (worldSize * u - worldSize / 2) <->
     c - c0 < w / 20 \/ 19 * w / 20 < c - c0).
Proof.
  intros Hw u.
  assert (Hu : c - c0 = u * w) by (unfold u; field; lra).
  unfold boundarySize, worldSize. split.
  - intros Hc. assert (0 <= u <= 1) by nra. solve_abs.
  - split.
    + intros H. assert (u < 0.05 \/ 0.95 < u) by solve_abs.
      destruct H0; [left|right]; nra.
    + intros [H|H]; [assert (u < 0.05) by nra|assert (0.95 < u) by nra]; solve_abs.
Qed.

(** Extra: for a mouse event on a displayed canvas the world position is
    [worldSize * u - worldSize/2] along x and z, with [u] the fraction of the
    canvas width (height) left of (above) the pointer; a pointer inside the
    canvas gives [|x|, |z| <= worldSize/2], and [|x| > boundarySize/2] exactly
    in the outer twentieth of the canvas on either side. *)
Theorem pointer_mouse_world (rect : DOMRect) (cx cy : R) :
  0 < rect_width rect -> 0 < rect_height rect ->
  let u := (cx - rect_left rect) / rect_width rect in
  let v := (cy - rect_top rect) / rect_height rect in
  getPointerPosition rect (MouseEvent cx cy) =
    (Some (worldSize * u - worldSize / 2), Some (worldSize * v - worldSize / 2)) /\
  (rect_left rect <= cx <= rect_left rect + rect_width rect ->
     Rabs (worldSize * u - worldSize / 2) <= worldSize / 2) /\
  (rect_top rect <= cy <= rect_top rect + rect_height rect ->
     Rabs (worldSize * v - worldSize / 2) <= worldSize / 2) /\
  (boundarySize / 2 < Rabs (worldSize * u - worldSize / 2) <->
     cx - rect_left rect < rect_width rect / 20 \/
     19 * rect_width rect / 20 < cx - rect_left rect) /\
  (boundarySize / 2 < Rabs (worldSize * v - worldSize / 2) <->
     cy - rect_top rect < rect_height rect / 20 \/
     19 * rect_height rect / 20 < cy - rect_top rect).
Proof.
  intros Hw Hh u v.
  destruct (world_coord_props (rect_left rect) (rect_width rect) cx Hw) as [A1 A2].
  destruct (world_coord_props (rect_top rect) (rect_height rect) cy Hh) as [B1 B2].
  fold u in A1, A2. fold v in B1, B2.
  split; [|split; [exact A1|split; [exact B1|split; [exact A2|exact B2]]]].
  unfold getPointerPosition. simpl. fold u v.
  f_equal; f_equal; field.
Qed.

Lemma pointer_mouse_world_witness :
  0 < rect_width (mkRect 0 0 100 100) /\ 0 < rect_height (mkRect 0 0 100 100) /\
  getPointerPosition (mkRect 0 0 100 100) (MouseEvent 50 50) =
    (Some (worldSize * ((50 - 0) / 100) - worldSize / 2),
     Some (worldSize * ((50 - 0) / 100) - worldSize / 2)).
Proof.
  assert (H1 : 0 < rect_width (mkRect 0 0 100 100)) by (simpl; lra).
  assert (H2 : 0 < rect_height (mkRect 0 0 100 100)) by (simpl; lra).
  split; [exact H1|]. split; [exact H2|].
  exact (proj1 (pointer_mouse_world (mkRect 0 0 100 100) 50 50 H1 H2)).
Defined.

(** Extra: a touch event whose first active and first changed touch are the
    same touch, or that has no active touch (touchend), is read like a mouse
    event at that touch; a coordinate 0 of the active touch is replaced by the
    changed touch's coordinate; a nonzero one is kept; with no touch at all
    both world coordinates are NaN. *)
Theorem pointer_touch_fallback :
  (forall rect t ts cts,
     getPointerPosition rect (TouchEvent (t :: ts) (t :: cts)) =
     getPointerPosition rect (MouseEvent (touchClientX t) (touchClientY t))) /\
  (forall rect t cts,
     getPointerPosition rect (TouchEvent [] (t :: cts)) =
     getPointerPosition rect (MouseEvent (touchClientX t) (touchClientY t))) /\
  (forall rect t t' ts cts, touchClientX t = 0 ->
     fst (getPointerPosition rect (TouchEvent (t :: ts) (t' :: cts))) =
     fst (getPointerPosition rect (MouseEvent (touchClientX t') (touchClientY t')))) /\
  (forall rect t t' ts cts, touchClientX t <> 0 -> touchClientY t <> 0 ->
     getPointerPosition rect (TouchEvent (t :: ts) (t' :: cts)) =
     getPointerPosition rect (MouseEvent (touchClientX t) (touchClientY t))) /\
  (forall rect, getPointerPosition rect (TouchEvent [] []) = (None, None)).
Proof.
  split; [|split; [|split; [|split]]].
  - intros rect t ts cts. unfold getPointerPosition. simpl.
    destruct (Req_EM_T (touchClientX t) 0); destruct (Req_EM_T (touchClientY t) 0);
      reflexivity.
  - intros rect t cts. reflexivity.
  - intros rect t t' ts cts H. unfold getPointerPosition. simpl.
    destruct (Req_EM_T (touchClientX t) 0) as [_|n]; [|contradiction].
    destruct (Req_EM_T (touchClientY t) 0); reflexivity.
  - intros rect t t' ts cts Hx Hy. unfold getPointerPosition. simpl.
    destruct (Req_EM_T (touchClientX t) 0) as [e|_]; [contradiction|].
    destruct (Req_EM_T (touchClientY t) 0) as [e|_]; [contradiction|].
    reflexivity.
  - intros rect. reflexivity.
Qed.

Lemma pointer_touch_fallback_witness :
  touchClientX (mkTouch 0 5) = 0 /\
  fst (getPointerPosition (mkRect 0 0 100 100) (TouchEvent [mkTouch 0 5] [mkTouch 30 5])) =
  fst (getPointerPosition (mkRect 0 0 100 100) (MouseEvent 30 5)).
Proof.
  assert (H : touchClientX (mkTouch 0 5) = 0) by reflexivity.
  split; [exact H|].
  exact (proj1 (proj2 (proj2 pointer_touch_fallback)) (mkRect 0 0 100 100)
           (mkTouch 0 5) (mkTouch 30 5) [] [] H).
Defined.

(** Extra: for a window of positive size the camera is centred on the world,
    its bounds have the window's aspect ratio, its shorter side spans exactly
    [worldSize], and the whole ground square is visible. *)
Theorem resize_frustum (width height : R) :
  0 < width -> 0 < height ->
  let f := resize width height in
  camRight f - camLeft f = (camTop f - camBottom f) * (width / height) /\
  camLeft f = - camRight f /\ camBottom f = - camTop f /\
  camLeft f <= - (worldSize / 2) /\ worldSize / 2 <= camRight f /\
  camBottom f <= - (worldSize / 2) /\ worldSize / 2 <= camTop f /\
  Rmin (camRight f - camLeft f) (camTop f - camBottom f) = worldSize.
Proof.
  intros Hw Hh f. unfold f, resize.
  assert (Ha : 0 < width / height) by (apply Rdiv_lt_0_compat; assumption).
  set (a := width / height) in *.
  destruct (Rlt_dec 1 a) as [H|H]; cbn [camLeft camRight camTop camBottom].
  - unfold worldSize.
    split; [field|]. split; [field|]. split; [field|].
    split; [nra|]. split; [nra|]. split; [lra|]. split; [lra|].
    rewrite Rmin_right by nra. field.
  - assert (Hi : 1 <= / a).
    { apply (Rmult_le_reg_r a); [exact Ha|]. rewrite Rinv_l by lra. lra. }
    assert (K1 : worldSize / 2 / a = 5 * / a) by (unfold worldSize; field; lra).
    assert (K2 : - worldSize / 2 / a = - (5 * / a)) by (unfold worldSize; field; lra).
    rewrite K1, K2. unfold worldSize.
    split; [field; lra|]. split; [field|]. split; [reflexivity|].
    split; [lra|]. split; [lra|]. split; [lra|]. split; [lra|].
    rewrite Rmin_left by lra. lra.
Qed.

Lemma resize_frustum_witness :
  0 < 1600 /\ 0 < 900 /\
  Rmin (camRight (resize 1600 900) - camLeft (resize 1600 900))
       (camTop (resize 1600 900) - camBottom (resize 1600 900)) = worldSize.
Proof.
  assert (H1 : 0 < 1600) by lra. assert (H2 : 0 < 900) by lra.
  split; [exact H1|]. split; [exact H2|].
  exact (proj2 (proj2 (proj2 (proj2 (proj2 (proj2 (proj2 (resize_frustum 1600 900 H1 H2)))))))).
Defined.

(** ** Strokes, taps and what the handlers leave alone *)

Lemma gDrawn_eq :
  gDrawn = mkGame true 0 2 1 5 [ball0] [] true [mkV 0 0.1 0; mkV 1 0.1 0].
Proof.
  unfold gDrawn, onPointerMove. simpl.
  replace (distanceTo (mkV 0 0.1 0) (mkV 1 0.1 0)) with 1
    by (symmetry; unfold distanceTo, length, lengthSq, dot, vsub; simpl;
        apply sqrt_eq_sq; lra).
  destruct (Rlt_dec 0.1 1) as [_|n]; [|lra].
  cbv [set_drawing onPointerDown startGame spawnBall set_balls initialGame].
  simpl. rewrite newBall_0. reflexivity.
Qed.

Lemma ball0_out_after_3 : outOfBoundary (moveBall 3 ball0) = true.
Proof.
  apply outOfBoundary_spec. left. unfold boundarySize, worldSize. simpl. solve_abs.
Qed.

(** The ball of [gDrawn] leaves the boundary in a tick of [deltaTime = 3]
    while the stroke is still held: the game ends with the stroke pending. *)
Lemma drawing_gameover :
  let g := gameLoop gDrawn 3 0 in
  gameStarted g = false /\ isDrawing g = true /\
  currentLinePoints g = [mkV 0 0.1 0; mkV 1 0.1 0].
Proof.
  intros g. unfold g. rewrite gDrawn_eq. unfold gameLoop. cbn [gameStarted].
  unfold gameLoop_pre. cbn [gameTime nextBallSpawn].
  destruct (Rlt_dec 5 (0 + 3)) as [c|_]; [lra|].
  unfold updateBalls. cbn [lines balls updateBallsList].
  rewrite ball0_out_after_3. simpl. split; [reflexivity|split; reflexivity].
Qed.

Lemma drawing_gameover_reachable : reachable (gameLoop gDrawn 3 0).
Proof. apply reach_tick; [exact gDrawn_reachable|lra|lra]. Qed.

(** Extra: [startGame] keeps a stroke that was being drawn when the game
    ended: after a restart the next pointer-up turns it into the first barrier
    of the new session (ending it at once if the stroke is out of bounds), and
    a pointer move more than 0.1 away from its last point appends that point
    to it without a new press; a reachable game-over state holding such a
    stroke exists. *)
Theorem stroke_survives_restart :
  (forall g rnd, isDrawing g = true -> (2 <= List.length (currentLinePoints g))%nat ->
     let g' := onPointerUp (restartGame g rnd) in
     lines g' = [mkLine (segmentsOf (currentLinePoints g))] /\
     gameStarted g' = negb (existsb segmentOutOfBounds (segmentsOf (currentLinePoints g)))) /\
  (forall g rnd px pz lastPoint, isDrawing g = true ->
     nth_error (currentLinePoints g) (List.length (currentLinePoints g) - 1) = Some lastPoint ->
     0.1 < distanceTo lastPoint (mkV px 0.1 pz) ->
     let g' := onPointerMove (restartGame g rnd) px pz in
     isDrawing g' = true /\
     currentLinePoints g' = currentLinePoints g ++ [mkV px 0.1 pz]) /\
  (exists g, reachable g /\ gameStarted g = false /\ isDrawing g = true /\
     (2 <= List.length (currentLinePoints g))%nat).
Proof.
  split; [|split].
  - intros g rnd Hd Hlen g'. unfold g', onPointerUp, restartGame, startGame, spawnBall, set_balls.
    cbn [set_drawing gameStarted isDrawing currentLinePoints balls lines andb].
    rewrite Hd. cbn [andb].
    destruct (Nat.ltb_spec 1 (List.length (currentLinePoints g))) as [_|c]; [|lia].
    unfold finalizeLine.
    cbn [set_drawing gameStarted isDrawing currentLinePoints balls lines].
    destruct (Nat.ltb_spec (List.length (currentLinePoints g)) 2) as [c|_]; [lia|].
    unfold checkLineOutOfBounds, set_lines. cbn [lines app existsb segments].
    rewrite Bool.orb_false_r.
    destruct (existsb segmentOutOfBounds (segmentsOf (currentLinePoints g)));
      simpl; split; reflexivity.
  - intros g rnd px pz lp Hd Hn Hdist g'.
    unfold g', onPointerMove, restartGame, startGame, spawnBall, set_balls.
    cbn [gameStarted isDrawing currentLinePoints]. rewrite Hd. cbn [andb].
    rewrite Hn. destruct (Rlt_dec _ _) as [_|c]; [|lra].
    split; reflexivity.
  - exists (gameLoop gDrawn 3 0). destruct drawing_gameover as (H1 & H2 & H3).
    split; [exact drawing_gameover_reachable|]. split; [exact H1|]. split; [exact H2|].
    rewrite H3. simpl. lia.
Qed.

Lemma stroke_survives_restart_witness :
  isDrawing (gameLoop gDrawn 3 0) = true /\
  (2 <= List.length (currentLinePoints (gameLoop gDrawn 3 0)))%nat /\
  lines (onPointerUp (restartGame (gameLoop gDrawn 3 0) 0)) =
    [mkLine (segmentsOf (currentLinePoints (gameLoop gDrawn 3 0)))] /\
  nth_error (currentLinePoints (gameLoop gDrawn 3 0))
            (List.length (currentLinePoints (gameLoop gDrawn 3 0)) - 1) = Some (mkV 1 0.1 0) /\
  0.1 < distanceTo (mkV 1 0.1 0) (mkV 2 0.1 0) /\
  currentLinePoints (onPointerMove (restartGame (gameLoop gDrawn 3 0) 0) 2 0) =
    currentLinePoints (gameLoop gDrawn 3 0) ++ [mkV 2 0.1 0].
Proof.
  destruct drawing_gameover as (_ & H1 & H3).
  assert (H2 : (2 <= List.length (currentLinePoints (gameLoop gDrawn 3 0)))%nat)
    by (rewrite H3; simpl; lia).
  assert (H4 : nth_error (currentLinePoints (gameLoop gDrawn 3 0))
                 (List.length (currentLinePoints (gameLoop gDrawn 3 0)) - 1) = Some (mkV 1 0.1 0))
    by (rewrite H3; reflexivity).
  assert (H5 : 0.1 < distanceTo (mkV 1 0.1 0) (mkV 2 0.1 0)).
  { replace (distanceTo (mkV 1 0.1 0) (mkV 2 0.1 0)) with 1; [lra|].
    symmetry; unfold distanceTo, length, lengthSq, dot, vsub; simpl; apply sqrt_eq_sq; lra. }
  split; [exact H1|]. split; [exact H2|].
  split; [exact (proj1 (proj1 stroke_survives_restart (gameLoop gDrawn 3 0) 0 H1 H2))|].
  split; [exact H4|]. split; [exact H5|].
  exact (proj2 (proj1 (proj2 stroke_survives_restart) (gameLoop gDrawn 3 0) 0 2 0
                      (mkV 1 0.1 0) H1 H4 H5)).
Defined.

Lemma finalizeLine_started g : gameStarted (finalizeLine g) = true -> gameStarted g = true.
Proof.
  unfold finalizeLine, checkLineOutOfBounds.
  destruct (Nat.ltb _ 2); [auto|]. destruct (existsb _ _); simpl; [discriminate|auto].
Qed.

Lemma onPointerUp_frame g :
  let g' := onPointerUp g in
  balls g' = balls g /\ gameTime g' = gameTime g /\ ballSpeed g' = ballSpeed g /\
  nextBallSpawn g' = nextBallSpawn g /\
  (gameStarted g' = true -> gameStarted g = true) /\
  (lines g' = lines g \/ exists l, lines g' = lines g ++ [l]).
Proof.
  intros g'. unfold g', onPointerUp.
  destruct (gameStarted g && isDrawing g)%bool;
    [|split; [reflexivity|split; [reflexivity|split; [reflexivity|split;
        [reflexivity|split; [auto|now left]]]]]].
  set (g1 := set_drawing g false (currentLinePoints g)).
  assert (G : forall g2, g2 = g1 \/ g2 = finalizeLine g1 ->
            let g3 := set_drawing g2 (isDrawing g2) [] in
            balls g3 = balls g /\ gameTime g3 = gameTime g /\ ballSpeed g3 = ballSpeed g /\
            nextBallSpawn g3 = nextBallSpawn g /\
            (gameStarted g3 = true -> gameStarted g = true) /\
            (lines g3 = lines g \/ exists l, lines g3 = lines g ++ [l])).
  { intros g2 [-> | ->] g3; unfold g3, set_drawing;
      cbn [balls gameTime ballSpeed nextBallSpawn gameStarted lines].
    - split; [reflexivity|split; [reflexivity|split; [reflexivity|split; [reflexivity|]]]].
      split; [auto|now left].
    - destruct (finalizeLine_clock g1) as (C1 & C2 & C3).
      destruct (finalizeLine_fields g1) as (F1 & _ & _ & F4 & _).
      rewrite C1, C2, C3, F1.
      split; [reflexivity|split; [reflexivity|split; [reflexivity|split; [reflexivity|]]]].
      split; [intros H; exact (finalizeLine_started g1 H)|].
      destruct F4 as [-> | ->]; [now left|right; now eexists]. }
  destruct (Nat.ltb 1 _); apply G; auto.
Qed.

(** Extra: pointer events never move, add or remove balls, never change the
    clock, the speed or the spawn threshold and never start the game;
    pointer-down and pointer-move leave the barriers as they are, and
    pointer-up keeps them and appends at most one; a tick never changes the
    barriers or the stroke being drawn. *)
Theorem events_frame (g : Game) (px pz dt rnd : R) :
  (forall g', In g' [onPointerDown g px pz; onPointerMove g px pz; onPointerUp g] ->
     balls g' = balls g /\ gameTime g' = gameTime g /\ ballSpeed g' = ballSpeed g /\
     nextBallSpawn g' = nextBallSpawn g /\
     (gameStarted g' = true -> gameStarted g = true)) /\
  lines (onPointerDown g px pz) = lines g /\
  lines (onPointerMove g px pz) = lines g /\
  (lines (onPointerUp g) = lines g \/ exists l, lines (onPointerUp g) = lines g ++ [l]) /\
  lines (gameLoop g dt rnd) = lines g /\
  isDrawing (gameLoop g dt rnd) = isDrawing g /\
  currentLinePoints (gameLoop g dt rnd) = currentLinePoints g.
Proof.
  split; [|split; [|split; [|split; [|split; [apply gameLoop_lines|]]]]].
  - intros g' [<- | [<- | [<- | []]]].
    + unfold onPointerDown. case_eq (gameStarted g); intros E;
        (split; [reflexivity|split; [reflexivity|split; [reflexivity|split; [reflexivity|]]]]);
        intros H; simpl in H; congruence.
    + unfold onPointerMove. destruct (gameStarted g && isDrawing g)%bool eqn:E.
      * apply andb_prop in E as [E _].
        destruct (nth_error _ _); [destruct (Rlt_dec _ _)|];
          (split; [reflexivity|split; [reflexivity|split; [reflexivity|split; [reflexivity|]]]]);
          auto.
      * split; [reflexivity|split; [reflexivity|split; [reflexivity|split; [reflexivity|]]]].
        auto.
    + destruct (onPointerUp_frame g) as (U1 & U2 & U3 & U4 & U5 & _).
      repeat split; assumption.
  - unfold onPointerDown. destruct (gameStarted g); reflexivity.
  - unfold onPointerMove. destruct (gameStarted g && isDrawing g)%bool; [|reflexivity].
    destruct (nth_error _ _); [destruct (Rlt_dec _ _)|]; reflexivity.
  - exact (proj2 (proj2 (proj2 (proj2 (proj2 (onPointerUp_frame g)))))).
  - unfold gameLoop. destruct (gameStarted g); [|split; reflexivity].
    destruct (updateBalls_fields (gameLoop_pre g dt rnd) dt) as (_ & _ & _ & _ & _ & F6 & F7).
    destruct (gameLoop_pre_fields g dt rnd) as (_ & _ & _ & P4 & P5).
    split; congruence.
Qed.

(** ** The direction in which a segment was drawn *)

Lemma vec_dec_eq (a c : Vector3) : {a = c} + {a <> c}.
Proof.
  destruct a as [ax ay az], c as [cx cy cz].
  destruct (Req_EM_T ax cx) as [->|n]; [|right; intros E; injection E; auto].
  destruct (Req_EM_T ay cy) as [->|n]; [|right; intros E; injection E; auto].
  destruct (Req_EM_T az cz) as [->|n]; [left; reflexivity|right; intros E; injection E; auto].
Qed.

Lemma clamp_flip s : Rmax 0 (Rmin 1 (1 - s)) = 1 - Rmax 0 (Rmin 1 s).
Proof.
  destruct (Rle_lt_dec s 0) as [H|H]; [|destruct (Rle_lt_dec s 1) as [H'|H']].
  - rewrite (Rmin_right 1 s), (Rmax_left 0 s), (Rmin_left 1 (1 - s)), (Rmax_right 0 1)
      by lra. lra.
  - rewrite (Rmin_right 1 s), (Rmax_right 0 s), (Rmin_right 1 (1 - s)), (Rmax_right 0 (1 - s))
      by lra. lra.
  - rewrite (Rmin_left 1 s), (Rmax_right 0 1), (Rmin_right 1 (1 - s)), (Rmax_left 0 (1 - s))
      by lra. lra.
Qed.

Lemma neg_scale_abs : Rabs (-1) = 1.
Proof. rewrite Rabs_left by lra. lra. Qed.

Lemma normalize_neg v : normalize (multiplyScalar v (-1)) = multiplyScalar (normalize v) (-1).
Proof.
  unfold normalize. rewrite length_scale, neg_scale_abs, Rmult_1_l.
  unfold divideScalar, multiplyScalar. apply vec_eq; simpl; ring.
Qed.

Lemma lineDirection_swap a c :
  lineDirection (mkSeg c a) = multiplyScalar (lineDirection (mkSeg a c)) (-1).
Proof.
  unfold lineDirection. cbn [start end_].
  replace (vsub a c) with (multiplyScalar (vsub c a) (-1))
    by (apply vec_eq; unfold vsub, multiplyScalar; simpl; ring).
  apply normalize_neg.
Qed.

Lemma segmentNormal_swap a c :
  segmentNormal (mkSeg c a) = multiplyScalar (segmentNormal (mkSeg a c)) (-1).
Proof.
  unfold segmentNormal. rewrite lineDirection_swap.
  apply vec_eq; unfold multiplyScalar; simpl; ring.
Qed.

Lemma reflect_neg v n : reflect v (multiplyScalar n (-1)) = reflect v n.
Proof. unfold reflect, dot, vsub, multiplyScalar. apply vec_eq; simpl; ring. Qed.

Lemma closestPoint_swap p a c :
  a <> c -> closestPoint p (mkSeg c a) = closestPoint p (mkSeg a c).
Proof.
  intros Hac.
  rewrite (closestPoint_foot p (mkSeg c a)) by (simpl; congruence).
  rewrite (closestPoint_foot p (mkSeg a c)) by exact Hac.
  cbn [start end_].
  pose proof (vsub_neq_lengthSq a c Hac) as HL.
  unfold lengthSq, dot, vsub, vadd, multiplyScalar in *. cbn [x y z] in *.
  apply vec_eq; cbn [x y z]; field; intros E; apply HL; lra.
Qed.

Lemma pointToLineDistance_swap p a c :
  pointToLineDistance p c a = pointToLineDistance p a c.
Proof.
  destruct (vec_dec_eq a c) as [<-|Hac]; [reflexivity|].
  rewrite (pointToLineDistance_nondeg p c a) by congruence.
  rewrite (pointToLineDistance_nondeg p a c) by exact Hac.
  pose proof (vsub_neq_lengthSq a c Hac) as HL.
  assert (E : dot (vsub p c) (vsub a c) / lengthSq (vsub a c) =
              1 - dot (vsub p a) (vsub c a) / lengthSq (vsub c a)).
  { unfold lengthSq, dot, vsub in *. cbn [x y z] in *. field.
    intros E; apply HL; lra. }
  rewrite E, clamp_flip. f_equal. f_equal.
  apply vec_eq; unfold vsub, vadd, multiplyScalar; cbn [x y z]; ring.
Qed.

(** Extra: a single segment and the same segment drawn the other way round
    give the same distance and the same collision response: the sign of the
    segment's normal does not matter.  This is per segment: reversing a stroke
    of several segments also reverses the order in which
    [checkBallLineCollision] applies them. *)
Theorem collision_direction_independent (b : Ball) (a c : Vector3) :
  pointToLineDistance (position b) c a = pointToLineDistance (position b) a c /\
  collideSegment b (mkSeg c a) = collideSegment b (mkSeg a c).
Proof.
  split; [apply pointToLineDistance_swap|].
  destruct (vec_dec_eq a c) as [<-|Hac]; [reflexivity|].
  unfold collideSegment. cbn [start end_]. rewrite pointToLineDistance_swap.
  destruct (pointToLineDistance _ _ _) as [d|]; [|reflexivity].
  destruct (Rlt_dec _ _); [|reflexivity].
  rewrite closestPoint_swap by exact Hac. rewrite segmentNormal_swap, reflect_neg.
  reflexivity.
Qed.
